(** * Shellfish QMRA: the simulation core of [shellfish_app.py]

    A shallow embedding of the samplers, the dose-response model and the
    orchestrator [run_shellfish_qmra_advanced], with the properties the
    specification states about them.

    Numbers.  A NumPy float64 is modelled by [npfloat]: the IEEE special
    values (NaN and the two infinities) are kept, because the source filters
    on [np.isnan] and clamps with [np.maximum]/[np.minimum]; a finite value
    carries an exact real number, so the rounding of float64 arithmetic is
    not part of this model.  The places where the range of the machine
    numbers changes what the program does are kept: [10 ** x] raises on
    overflow, [gammaln] overflows to [+inf], and the integer arrays are
    [int64].  The statements on [npfloat] are those that rounding cannot
    change, or are made under bounds that keep the computation away from
    overflow.  Where rounding decides (the values of the hockey-stick
    branches at their boundaries), the arithmetic is modelled a second
    time in binary64 itself, with the primitive floats of the kernel.
    Comparisons of reals are decided classically, so concrete inputs are
    evaluated by rewriting rather than by computation.

    Randomness.  The source draws from NumPy's process-wide generator.  The
    model threads the state of that generator through every function, as a
    stream of raw outputs and a position in it; each variate is obtained
    from one raw output by inversion, which gives the law of the NumPy or
    SciPy sampler without following its algorithm bit for bit.

    External functions.  [exp], [sqrt] and the power function are those of
    the real numbers; the finite values of [scipy.special.gammaln] and the
    normal quantile function are parameters. *)

From Stdlib Require Import PrimFloat SpecFloat FloatOps FloatAxioms.
From Stdlib Require Import Reals Lra Lia List ZArith String Bool.
Import ListNotations.

Open Scope R_scope.

(** ** Float64 values with exact finite arithmetic *)

Inductive npfloat : Type :=
| NaN
| NInf
| Fin (r : R)
| PInf.

Definition Rleb (a b : R) : bool := if Rle_dec a b then true else false.
Definition Rltb (a b : R) : bool := if Rlt_dec a b then true else false.
Definition Reqb (a b : R) : bool := if Req_dec_T a b then true else false.

Definition isnan (x : npfloat) : bool :=
  match x with NaN => true | _ => false end.

Definition fneg (x : npfloat) : npfloat :=
  match x with
  | NaN => NaN
  | NInf => PInf
  | Fin a => Fin (- a)
  | PInf => NInf
  end.

Definition fadd (x y : npfloat) : npfloat :=
  match x, y with
  | NaN, _ | _, NaN => NaN
  | PInf, NInf | NInf, PInf => NaN
  | PInf, _ | _, PInf => PInf
  | NInf, _ | _, NInf => NInf
  | Fin a, Fin b => Fin (a + b)
  end.

Definition fsub (x y : npfloat) : npfloat := fadd x (fneg y).

(** Sign of a value that is not NaN: [-1], [0] or [1]. *)
Definition fsign (x : npfloat) : Z :=
  match x with
  | NaN => 0%Z
  | NInf => (-1)%Z
  | PInf => 1%Z
  | Fin a => if Rltb 0 a then 1%Z else if Rltb a 0 then (-1)%Z else 0%Z
  end.

Definition signed_inf (s : Z) : npfloat :=
  if (0 <? s)%Z then PInf else if (s <? 0)%Z then NInf else NaN.

Definition fmul (x y : npfloat) : npfloat :=
  match x, y with
  | NaN, _ | _, NaN => NaN
  | Fin a, Fin b => Fin (a * b)
  | _, _ => signed_inf (fsign x * fsign y)
  end.

(** [np.true_divide]: a zero divisor gives an infinity (or NaN for [0/0]),
    never an exception. *)
Definition fdiv (x y : npfloat) : npfloat :=
  match x, y with
  | NaN, _ | _, NaN => NaN
  | Fin a, Fin b => if Reqb b 0 then signed_inf (fsign x) else Fin (a / b)
  | Fin _, _ => Fin 0
  | _, Fin b => if Rltb b 0 then fneg x else x
  | _, _ => NaN
  end.

Definition fsqrt (x : npfloat) : npfloat :=
  match x with
  | NaN | NInf => NaN
  | Fin a => if Rltb a 0 then NaN else Fin (sqrt a)
  | PInf => PInf
  end.

Definition fexp (x : npfloat) : npfloat :=
  match x with
  | NaN => NaN
  | NInf => Fin 0
  | Fin a => Fin (exp a)
  | PInf => PInf
  end.

(** Comparisons: any comparison with NaN is false. *)
Definition fle (x y : npfloat) : bool :=
  match x, y with
  | NaN, _ | _, NaN => false
  | NInf, _ | _, PInf => true
  | Fin a, Fin b => Rleb a b
  | _, _ => false
  end.

Definition flt (x y : npfloat) : bool :=
  match x, y with
  | NaN, _ | _, NaN => false
  | PInf, _ | _, NInf => false
  | Fin a, Fin b => Rltb a b
  | _, _ => true
  end.

(** [np.maximum] and [np.minimum] return NaN as soon as one argument is
    NaN. *)
Definition np_maximum (x y : npfloat) : npfloat :=
  match x, y with
  | NaN, _ | _, NaN => NaN
  | PInf, _ | _, PInf => PInf
  | NInf, z | z, NInf => z
  | Fin a, Fin b => Fin (Rmax a b)
  end.

Definition np_minimum (x y : npfloat) : npfloat :=
  match x, y with
  | NaN, _ | _, NaN => NaN
  | NInf, _ | _, NInf => NInf
  | PInf, z | z, PInf => z
  | Fin a, Fin b => Fin (Rmin a b)
  end.

(** A value of the closed unit interval. *)
Definition in_unit_interval (p : npfloat) : Prop :=
  exists r, p = Fin r /\ 0 <= r <= 1.

Definition finite_nonneg (d : npfloat) : Prop :=
  exists r, d = Fin r /\ 0 <= r.

(** ** Global parameters *)

Definition ALPHA : R := 0.04.
Definition BETA : R := 0.055.
Definition MHF_MEAN : R := 18.5.
Definition PR_ILLNESS_GIVEN_INFECTION : R := 0.6.
Definition MEAL_SIZE_A : R := 2.2046.
Definition MEAL_SIZE_B : R := 75.072.
Definition MEAL_SIZE_G : R := -0.9032.
Definition MEAL_SIZE_MIN : R := 5.0.
Definition MEAL_SIZE_MAX : R := 800.0.
Definition BAF_MEAN : R := 18.5.
Definition BAF_STD : R := 5.2.

(** ** Dose-response model *)

(** The argument beyond which SciPy's [gammaln] returns [+inf] (the
    constant of the Cephes routine it calls). *)
Definition MAXLGM : R := 2556348 * 10 ^ 299.

Section DoseResponse.

(** [ln |Gamma|] away from its poles: the finite part of
    [scipy.special.gammaln]. *)
Variable lnGamma : R -> R.

Definition gamma_pole (x : R) : bool :=
  Rleb x 0 && Reqb (IZR (Int_part x)) x.

(** [scipy.special.gammaln]: [+inf] at the poles [0, -1, -2, ...] and
    beyond [MAXLGM], where the value no longer fits a float64 (a float64
    that far below zero is a whole number, hence a pole); a non-finite
    argument is returned unchanged. *)
Definition gammaln (x : npfloat) : npfloat :=
  match x with
  | Fin a =>
      if gamma_pole a then PInf
      else if Rltb MAXLGM (Rabs a) then PInf
      else Fin (lnGamma a)
  | _ => x
  end.

Definition log_prob_complement (alpha beta dose : npfloat) : npfloat :=
  fsub (fsub (fadd (gammaln (fadd beta dose)) (gammaln (fadd alpha beta)))
             (gammaln (fadd (fadd alpha beta) dose)))
       (gammaln beta).

(** The value before the two clamping lines. *)
Definition prob_unclamped (alpha beta dose : npfloat) : npfloat :=
  fsub (Fin 1) (fexp (log_prob_complement alpha beta dose)).

Definition clamp01 (prob : npfloat) : npfloat :=
  np_minimum (np_maximum prob (Fin 0)) (Fin 1).

Definition infection_prob1 (alpha beta dose : npfloat) : npfloat :=
  clamp01 (prob_unclamped alpha beta dose).

(** [beta_binomial_infection_prob(dose, alpha, beta)], elementwise over
    the dose array. *)
Definition beta_binomial_infection_prob
           (dose : list npfloat) (alpha beta : npfloat) : list npfloat :=
  map (infection_prob1 alpha beta) dose.

End DoseResponse.

(** ** Exceptions, NumPy's global generator and the effect monad

    The source has no generator object of its own: every draw goes through
    the module-level functions of [np.random] (and [fisk.rvs], which falls
    back on the same generator), so the state that is read and advanced is
    the one process-wide generator.  Its state is modelled by the sequence
    of raw outputs still to come together with the number of outputs already
    consumed. *)

Inductive exn : Type :=
| ValueError (msg : string)
| ZeroDivisionError (msg : string)
| OverflowError (msg : string)
| IndexError (msg : string).

Inductive outcome (A : Type) : Type :=
| Ok (a : A)
| Raise (e : exn)
| OutOfFuel.

Arguments Ok {A} a.
Arguments Raise {A} e.
Arguments OutOfFuel {A}.

Record rng : Type := mk_rng { stream : nat -> N; pos : nat }.

(** A computation reads and updates the global generator; the generator
    keeps the draws it made when an exception is raised. *)
Definition M (A : Type) : Type := rng -> outcome A * rng.

Definition ret {A : Type} (a : A) : M A := fun w => (Ok a, w).

Definition raise {A : Type} (e : exn) : M A := fun w => (Raise e, w).

Definition out_of_fuel {A : Type} : M A := fun w => (OutOfFuel, w).

Definition bind {A B : Type} (c : M A) (k : A -> M B) : M B :=
  fun w =>
    match c w with
    | (Ok a, w') => k a w'
    | (Raise e, w') => (Raise e, w')
    | (OutOfFuel, w') => (OutOfFuel, w')
    end.

Declare Scope qmra_scope.
Delimit Scope qmra_scope with qmra.
Notation "x <- c ;; k" := (bind c (fun x => k))
  (at level 61, c at next level, right associativity) : qmra_scope.
Open Scope qmra_scope.

(** [n] successive runs of [c], results in order. *)
Fixpoint replicateM {A : Type} (n : nat) (c : M A) : M (list A) :=
  match n with
  | O => ret []
  | S k => x <- c ;; xs <- replicateM k c ;; ret (x :: xs)
  end.

(** [c] on each element in turn. *)
Fixpoint mapM {A B : Type} (f : A -> M B) (l : list A) : M (list B) :=
  match l with
  | [] => ret []
  | a :: t => x <- f a ;; xs <- mapM f t ;; ret (x :: xs)
  end.

(** One raw output of the generator. *)
Definition next_raw : M N :=
  fun w => (Ok (stream w (pos w)), mk_rng (stream w) (S (pos w))).

Definition two53 : N := 9007199254740992.

(** The 53-bit fraction that [np.random.random()] builds from the raw
    output: a multiple of [2^-53] in [[0, 1)]. *)
Definition unit_fraction (k : N) : R :=
  IZR (Z.of_N (k mod two53)) / IZR (Z.of_N two53).

Definition np_random_random : M R :=
  k <- next_raw ;; ret (unit_fraction k).

(** The success probability of a binomial draw must lie in [[0, 1]]. *)
Definition valid_prob (p : npfloat) : bool := fle (Fin 0) p && fle p (Fin 1).

(** One Bernoulli outcome, by inversion on one uniform variate: [1] when
    the variate is below [p].  NumPy maps its variate to the outcome by
    another rule; what the two have in common is the law, success with
    probability [p], and that [p = 0] never succeeds. *)
Definition bernoulli (p : npfloat) : M Z :=
  u <- np_random_random ;; ret (if flt (Fin u) p then 1%Z else 0%Z).

(** [np.random.binomial(1, p)] for an array [p]: the whole array is checked
    before the first draw; one Bernoulli draw per entry, in order. *)
Definition np_random_binomial1 (p : list npfloat) : M (list Z) :=
  if forallb valid_prob p then mapM bernoulli p
  else raise (ValueError "p < 0, p > 1 or p contains NaNs").

(** [np.random.binomial(1, p, size=n)] for a scalar [p]. *)
Definition np_random_binomial1_size (p : npfloat) (n : nat) : M (list Z) :=
  if valid_prob p then replicateM n (bernoulli p)
  else raise (ValueError "p < 0, p > 1 or p is NaN").

(** [np.random.choice(a, size=n, replace=True)] on a non-empty array: [n]
    index draws.  The index is taken here as the raw output modulo the
    length; NumPy derives it otherwise, and only the number of samples and
    that each is an element of [a] are meant. *)
Definition np_random_choice (a : list npfloat) (n : nat) : M (list npfloat) :=
  match a with
  | [] => if (n =? 0)%nat then ret []
          else raise (ValueError "'a' cannot be empty unless no samples are taken")
  | _ :: _ =>
      replicateM n (k <- next_raw ;;
                    ret (nth (N.to_nat k mod List.length a) a NaN))
  end.

(** Quantile function of the standard log-logistic distribution with shape
    [c] on [[0, 1)]. *)
Definition fisk_ppf (c q : R) : R :=
  if Reqb q 0 then 0 else Rpower (q / (1 - q)) (/ c).

(** [fisk.rvs(c, loc=loc, scale=scale)]: inverse-transform sampling. *)
Definition fisk_rvs (c loc scale : R) : M npfloat :=
  u <- np_random_random ;; ret (Fin (loc + scale * fisk_ppf c u)).

(** [np.random.triangular(left, mode, right, size=n)]. *)
Definition triangular_variate (left mode right : npfloat) (u : R) : npfloat :=
  let base := fsub right left in
  let leftbase := fsub mode left in
  let ratio := fdiv leftbase base in
  let leftprod := fmul leftbase base in
  let rightprod := fmul (fsub right mode) base in
  if fle (Fin u) ratio then fadd left (fsqrt (fmul (Fin u) leftprod))
  else fsub right (fsqrt (fmul (fsub (Fin 1) (Fin u)) rightprod)).

Definition feq (x y : npfloat) : bool := fle x y && fle y x.

Definition np_random_triangular (left mode right : npfloat) (n : nat)
  : M (list npfloat) :=
  if flt mode left then raise (ValueError "left > mode")
  else if flt right mode then raise (ValueError "mode > right")
  else if feq left right then raise (ValueError "left == right")
  else replicateM n (u <- np_random_random ;;
                     ret (triangular_variate left mode right u)).

(** ** Dose discretizer *)

(** The range of a NumPy [int64]. *)
Definition INT64_MIN : Z := (-9223372036854775808)%Z.
Definition INT64_MAX : Z := 9223372036854775807%Z.

(** [np.floor(dose).astype(int)].  The array is [int64]: a floor within
    its range is converted exactly.  The conversion of any other value,
    NaN and the infinities included, is left to the processor; the value
    taken here is the one of x86-64, [INT64_MIN].  [fractional_part] below
    is then outside [[0, 1]], and the binomial draw rejects it. *)
Definition integer_part (dose : npfloat) : Z :=
  match dose with
  | Fin d =>
      if (INT64_MIN <=? Int_part d)%Z && (Int_part d <=? INT64_MAX)%Z
      then Int_part d else INT64_MIN
  | _ => INT64_MIN
  end.

Definition fractional_part (dose : npfloat) : npfloat :=
  fsub dose (Fin (IZR (integer_part dose))).

(** *** Two readings of a program that draws

    A program that draws is written once, over the operations it uses,
    and read in two ways: as a sampler on the global generator (the monad
    [M]), and as the law of its result, a finite distribution given as the
    list of the outcomes with their probabilities.  In the second reading
    a draw of [np.random.binomial(1, p)] is its documented law, success
    with probability [p]. *)

Definition dist (A : Type) : Type := list (A * R).

Definition expectation {A : Type} (f : A -> R) (d : dist A) : R :=
  fold_right (fun '(a, w) acc => w * f a + acc) 0 d.

Definition total_mass {A : Type} (d : dist A) : R :=
  fold_right (fun '(_, w) acc => w + acc) 0 d.

Definition scale {A : Type} (c : R) (d : dist A) : dist A :=
  map (fun '(a, w) => (a, c * w)) d.

Inductive law (A : Type) : Type :=
| Law (d : dist A)
| Fails (e : exn).

Arguments Law {A} d.
Arguments Fails {A} e.

Definition law_ret {A : Type} (a : A) : law A := Law [(a, 1)].

Fixpoint law_sum {A B : Type} (d : dist A) (k : A -> law B) : law B :=
  match d with
  | [] => Law []
  | (a, w) :: t =>
      match k a, law_sum t k with
      | Law da, Law dt => Law (scale w da ++ dt)
      | Fails e, _ => Fails e
      | _, Fails e => Fails e
      end
  end.

Definition law_bind {A B : Type} (c : law A) (k : A -> law B) : law B :=
  match c with
  | Law d => law_sum d k
  | Fails e => Fails e
  end.

Fixpoint law_mapM {A B : Type} (f : A -> law B) (l : list A) : law (list B) :=
  match l with
  | [] => law_ret []
  | a :: t =>
      law_bind (f a) (fun x =>
      law_bind (law_mapM f t) (fun xs => law_ret (x :: xs)))
  end.

(** The value of [f] expected under a law; [0] for a program that fails. *)
Definition expect {A : Type} (f : A -> R) (l : law A) : R :=
  match l with
  | Law d => expectation f d
  | Fails _ => 0
  end.

(** A finite distribution: weights that are not negative, on outcomes
    with the property [P]. *)
Definition supported {A : Type} (P : A -> Prop) (d : dist A) : Prop :=
  Forall (fun ow => P (fst ow) /\ 0 <= snd ow) d.

Definition success_probability (p : npfloat) : R :=
  match p with Fin q => q | _ => 0 end.

(** Law of one draw of [np.random.binomial(1, p)]. *)
Definition bernoulli_law (p : npfloat) : law Z :=
  Law [(1%Z, success_probability p); (0%Z, 1 - success_probability p)].

(** Law of [np.random.binomial(1, p)] for an array [p]: independent
    entries, after the same check of the whole array. *)
Definition binomial1_law (p : list npfloat) : law (list Z) :=
  if forallb valid_prob p then law_mapM bernoulli_law p
  else Fails (ValueError "p < 0, p > 1 or p contains NaNs").

(** The operations of a program that draws, and their two readings. *)
Record reading : Type := mk_reading {
  eff : Type -> Type;
  eff_ret : forall A : Type, A -> eff A;
  eff_bind : forall A B : Type, eff A -> (A -> eff B) -> eff B;
  binomial1 : list npfloat -> eff (list Z)
}.

Definition as_sampler : reading :=
  {| eff := M; eff_ret := @ret; eff_bind := @bind;
     binomial1 := np_random_binomial1 |}.

Definition as_law : reading :=
  {| eff := law; eff_ret := @law_ret; eff_bind := @law_bind;
     binomial1 := binomial1_law |}.

(** [discretize_dose(dose)], in either reading. *)
Definition discretize_dose_in (rd : reading) (dose : list npfloat)
  : eff rd (list Z) :=
  let integer_parts := map integer_part dose in
  let fractional_parts := map fractional_part dose in
  eff_bind rd _ _ (binomial1 rd fractional_parts) (fun fractional_organisms =>
  eff_ret rd _ (map (fun '(i, b) => (i + b)%Z)
                    (combine integer_parts fractional_organisms))).

(** The function of the source, on the global generator. *)
Definition discretize_dose (dose : list npfloat) : M (list Z) :=
  discretize_dose_in as_sampler dose.

(** The law of its result. *)
Definition discretize_dose_law (dose : list npfloat) : law (list Z) :=
  discretize_dose_in as_law dose.

(** A dose that the discretizer accepts: finite, with a floor in the
    range of [int64]. *)
Definition int64_dose (d : npfloat) : Prop :=
  exists r, d = Fin r /\ - 2 ^ 63 <= r < 2 ^ 63.

(** ** Distribution samplers *)

(** The test of the rejection loop,
    [MEAL_SIZE_MIN <= sample <= MEAL_SIZE_MAX]. *)
Definition meal_size_accepted (sample : npfloat) : bool :=
  fle (Fin MEAL_SIZE_MIN) sample && fle sample (Fin MEAL_SIZE_MAX).

(** [sample_meal_size_loglogistic(n_samples)].  The [while] loop has no
    bound on its attempts; [fuel] bounds the number of variates the model
    may draw, and the loop is [OutOfFuel] when that is not enough. *)
Fixpoint meal_size_loop (fuel n_samples : nat) (samples : list npfloat)
  : M (list npfloat) :=
  if (List.length samples <? n_samples)%nat then
    match fuel with
    | O => out_of_fuel
    | S fuel' =>
        sample <- fisk_rvs MEAL_SIZE_A MEAL_SIZE_G MEAL_SIZE_B ;;
        if meal_size_accepted sample
        then meal_size_loop fuel' n_samples (samples ++ [sample])
        else meal_size_loop fuel' n_samples samples
    end
  else ret samples.

Definition sample_meal_size_loglogistic (fuel n_samples : nat)
  : M (list npfloat) :=
  samples <- meal_size_loop fuel n_samples [] ;;
  ret (firstn n_samples samples).

(** Python's [/] on two built-in floats, which is what the scalar
    arguments of the hockey-stick sampler are when the application passes
    them: a zero divisor raises. *)
Definition py_truediv (a b : npfloat) : M npfloat :=
  if feq b (Fin 0) then raise (ZeroDivisionError "float division by zero")
  else ret (fdiv a b).

(** Python's [10 ** x] for a built-in float [x], which is what
    [log_removal_wwtp] is when the application passes it: the power raises
    when it rounds to an infinity, from [2^1024 - 2^970] on, and is [0.0]
    when it rounds to zero, up to [2^-1075]. *)
Definition py_pow10 (x : npfloat) : M npfloat :=
  match x with
  | NaN => ret NaN
  | NInf => ret (Fin 0)
  | PInf => ret PInf
  | Fin a =>
      if Rleb (2 ^ 1024 - 2 ^ 970) (Rpower 10 a)
      then raise (OverflowError "(34, 'Numerical result out of range')")
      else if Rleb (Rpower 10 a) (/ 2 ^ 1075) then ret (Fin 0)
      else ret (Fin (Rpower 10 a))
  end.

(** The breakpoint value [xp]. *)
Definition hockey_xp (x50 x100 percentile_break : npfloat) : npfloat :=
  fadd x50 (fmul (fsub x100 x50) percentile_break).

(** The three branches of the transform of the uniform variate [u]. *)
Definition hockey_lower (x0 x50 h1 u : npfloat) : M npfloat :=
  r <- py_truediv (fmul (fmul u (Fin 2)) (fsub x50 x0)) h1 ;;
  ret (fadd x0 (fsqrt r)).

Definition hockey_middle (x50 xp percentile_break u : npfloat) : M npfloat :=
  r <- py_truediv (fmul (fsub u (Fin 0.5)) (fsub xp x50))
                  (fsub percentile_break (Fin 0.5)) ;;
  ret (fadd x50 r).

Definition hockey_upper (x100 xp percentile_break u : npfloat) : M npfloat :=
  r <- py_truediv (fmul (fsub u percentile_break) (fsub x100 xp))
                  (fsub (Fin 1) percentile_break) ;;
  ret (fadd xp r).

Definition hockey_transform (x0 x50 x100 percentile_break h1 xp u : npfloat)
  : M npfloat :=
  if fle u (Fin 0.5) then hockey_lower x0 x50 h1 u
  else if fle u percentile_break then hockey_middle x50 xp percentile_break u
  else hockey_upper x100 xp percentile_break u.

(** Height of the triangular section. *)
Definition hockey_h1 (x0 x50 : npfloat) : M npfloat :=
  py_truediv (fmul (Fin 2) (Fin 0.5)) (fsub x50 x0).

(** [sample_hockey_stick_concentration(n_samples, x0, x50, x100,
    percentile_break)].  The locals [q] and [s] of the source are computed
    and never used. *)
Definition sample_hockey_stick_concentration
           (n_samples : nat) (x0 x50 x100 percentile_break : npfloat)
  : M (list npfloat) :=
  h1 <- hockey_h1 x0 x50 ;;
  let xp := hockey_xp x50 x100 percentile_break in
  replicateM n_samples
    (u <- np_random_random ;;
     hockey_transform x0 x50 x100 percentile_break h1 xp (Fin u)).

(** *** The same arithmetic in binary64

    The addition, subtraction, multiplication, division and square root of
    the source are those of IEEE 754 binary64, which the primitive floats
    compute bit for bit.  The three branches and the two constants are
    given here as the values they have when no divisor is zero. *)

Definition hockey_h1_64 (x0 x50 : float) : float :=
  (2 * 0.5 / (x50 - x0))%float.

Definition hockey_xp_64 (x50 x100 percentile_break : float) : float :=
  (x50 + (x100 - x50) * percentile_break)%float.

Definition hockey_lower_64 (x0 x50 h1 u : float) : float :=
  (x0 + PrimFloat.sqrt (u * 2 * (x50 - x0) / h1))%float.

Definition hockey_middle_64 (x50 xp percentile_break u : float) : float :=
  (x50 + (u - 0.5) * (xp - x50) / (percentile_break - 0.5))%float.

Definition hockey_upper_64 (x100 xp percentile_break u : float) : float :=
  (xp + (u - percentile_break) * (x100 - xp) / (1 - percentile_break))%float.

(** The float64 nearest to [0.95], the default [percentile_break]. *)
Definition percentile_break_64 : float := 0x1.e666666666666p-1%float.

(** Classes of a binary64 value, read on its IEEE 754 description. *)
Definition sf_is_zero (x : spec_float) : bool :=
  match x with S754_zero _ => true | _ => false end.

Definition sf_is_nan (x : spec_float) : bool :=
  match x with S754_nan => true | _ => false end.

Definition sf_is_infinity (x : spec_float) : bool :=
  match x with S754_infinity _ => true | _ => false end.

Definition sf_is_finite (x : spec_float) : bool :=
  match x with S754_zero _ | S754_finite _ _ _ => true | _ => false end.

(** [dilution_data[~np.isnan(dilution_data)]] *)
Definition drop_nan (dilution_data : list npfloat) : list npfloat :=
  filter (fun x => negb (isnan x)) dilution_data.

(** [sample_ecdf(dilution_data, n_samples)] *)
Definition sample_ecdf (dilution_data : list npfloat) (n_samples : nat)
  : M (list npfloat) :=
  let dilution_data := drop_nan dilution_data in
  if (List.length dilution_data =? 0)%nat
  then raise (ValueError "No valid dilution data provided")
  else np_random_choice dilution_data n_samples.

Section Normal.

(** Quantile function of the standard normal distribution on [[0, 1)]. *)
Variable norm_ppf : R -> npfloat.

(** [np.random.normal(mean, std, n)] *)
Definition np_random_normal (mean std : npfloat) (n : nat) : M (list npfloat) :=
  if flt std (Fin 0) then raise (ValueError "scale < 0")
  else replicateM n (u <- np_random_random ;;
                     ret (fadd mean (fmul std (norm_ppf u)))).

(** [sample_baf(n_samples, mean, std)] *)
Definition sample_baf (n_samples : nat) (mean std : npfloat) : M (list npfloat) :=
  samples <- np_random_normal mean std n_samples ;;
  ret (map (fun x => np_maximum x (Fin 1.0)) samples).

End Normal.

(** ** Simulation orchestrator *)

(** Arrays of shape [(iterations, num_people)] are lists of rows. *)
Fixpoint reshape {A : Type} (rows cols : nat) (flat : list A) : list (list A) :=
  match rows with
  | O => []
  | S r => firstn cols flat :: reshape r cols (skipn cols flat)
  end.

Definition np_full {A : Type} (rows cols : nat) (v : A) : list (list A) :=
  repeat (repeat v cols) rows.

Fixpoint map2 {A B C : Type} (f : A -> B -> C) (l : list A) (l' : list B)
  : list C :=
  match l, l' with
  | a :: t, b :: t' => f a b :: map2 f t t'
  | _, _ => []
  end.

Definition sumZ (l : list Z) : Z := fold_right Z.add 0%Z l.

(** [ill[infected == 1] = values], on the flattened arrays: the entries
    where the mask holds receive the values in order, the others stay [0];
    [None] when the number of values is not the number of selected
    entries. *)
Fixpoint mask_assign (infected values : list Z) : option (list Z) :=
  match infected with
  | [] => match values with [] => Some [] | _ :: _ => None end
  | i :: t =>
      if (i =? 1)%Z then
        match values with
        | v :: vs => option_map (cons v) (mask_assign t vs)
        | [] => None
        end
      else option_map (cons 0%Z) (mask_assign t values)
  end.

Record qmra_args : Type := mk_args {
  site_name : string;
  dilution_data : list npfloat;
  effluent_min : npfloat;
  effluent_median : npfloat;
  effluent_max : npfloat;
  log_removal_wwtp : npfloat;
  num_people : nat;
  iterations : nat;
  mode : string;
  meal_size_fixed : npfloat;
  mhf_fixed : npfloat;
  use_hockey_stick : bool;
  use_variable_baf : bool
}.

(** The entries of the result dictionary that the properties below speak
    of; the median and percentile entries are left out. *)
Record qmra_result : Type := mk_result {
  res_site_name : string;
  res_mode : string;
  res_num_people : nat;
  res_iterations : nat;
  infections_mean : npfloat;
  infections_min : Z;
  infections_max : Z;
  infections_distribution : list Z;
  illness_mean : npfloat;
  illness_min : Z;
  illness_max : Z;
  illness_distribution : list Z;
  risk_per_person_mean : npfloat
}.

(** [np.mean] of an integer array; NaN on an empty one. *)
Definition np_mean (l : list Z) : npfloat :=
  fdiv (Fin (IZR (sumZ l))) (Fin (INR (List.length l))).

(** [np.min] and [np.max] raise on a zero-size array. *)
Definition np_min (l : list Z) : M Z :=
  match l with
  | [] => raise (ValueError "zero-size array to reduction operation minimum which has no identity")
  | x :: t => ret (fold_right Z.min x t)
  end.

Definition np_max (l : list Z) : M Z :=
  match l with
  | [] => raise (ValueError "zero-size array to reduction operation maximum which has no identity")
  | x :: t => ret (fold_right Z.max x t)
  end.

(** [np.percentile(l, q)], of which only the failure is kept: it raises
    on an empty array (and [np.median], evaluated before it, returns NaN
    there). *)
Definition np_percentile_defined (l : list Z) : M unit :=
  match l with
  | [] => raise (IndexError "index -1 is out of bounds for axis 0 with size 0")
  | _ :: _ => ret tt
  end.

(** The result dictionary, from the two per-scenario count arrays; its
    entries are evaluated in the order of the source. *)
Definition aggregate_results (a : qmra_args)
           (total_infections_all total_illness_all : list Z) : M qmra_result :=
  _ <- np_percentile_defined total_infections_all ;;
  inf_min <- np_min total_infections_all ;;
  inf_max <- np_max total_infections_all ;;
  _ <- np_percentile_defined total_illness_all ;;
  ill_min <- np_min total_illness_all ;;
  ill_max <- np_max total_illness_all ;;
  ret {| res_site_name := site_name a;
         res_mode := mode a;
         res_num_people := num_people a;
         res_iterations := iterations a;
         infections_mean := np_mean total_infections_all;
         infections_min := inf_min;
         infections_max := inf_max;
         infections_distribution := total_infections_all;
         illness_mean := np_mean total_illness_all;
         illness_min := ill_min;
         illness_max := ill_max;
         illness_distribution := total_illness_all;
         risk_per_person_mean :=
           fdiv (np_mean total_infections_all) (Fin (INR (num_people a))) |}.

Section Orchestrator.

Variable lnGamma : R -> R.
Variable norm_ppf : R -> npfloat.

(** Step 1: effluent concentrations for all iterations. *)
Definition sample_effluent (a : qmra_args) : M (list npfloat) :=
  if use_hockey_stick a then
    sample_hockey_stick_concentration
      (iterations a) (effluent_min a) (effluent_median a) (effluent_max a)
      (Fin 0.95)
  else
    np_random_triangular (effluent_min a) (effluent_median a) (effluent_max a)
                         (iterations a).

(** Step 5: meal sizes and bioaccumulation factors for every
    (iteration, person) pair. *)
Definition sample_meals_and_bafs (fuel : nat) (a : qmra_args)
  : M (list (list npfloat) * list (list npfloat)) :=
  let it := iterations a in
  let np := num_people a in
  if String.eqb (mode a) "advanced" then
    flat_meals <- sample_meal_size_loglogistic fuel (it * np) ;;
    let meal_sizes := reshape it np flat_meals in
    if use_variable_baf a then
      flat_bafs <- sample_baf norm_ppf (it * np) (Fin BAF_MEAN) (Fin BAF_STD) ;;
      ret (meal_sizes, reshape it np flat_bafs)
    else ret (meal_sizes, np_full it np (mhf_fixed a))
  else
    ret (np_full it np (meal_size_fixed a), np_full it np (mhf_fixed a)).

(** Step 6: [site_conc[:, np.newaxis] * water_equiv_L * bafs]. *)
Definition continuous_doses (site_conc : list npfloat)
           (meal_sizes bafs : list (list npfloat)) : list (list npfloat) :=
  let water_equiv_L := map (map (fun m => fdiv m (Fin 1000.0))) meal_sizes in
  map2 (fun c wb => map2 (fun w b => fmul (fmul c w) b) (fst wb) (snd wb))
       site_conc (combine water_equiv_L bafs).

(** Step 10: illness outcomes, drawn for the infected entries only. *)
Definition determine_illness (it np : nat) (infected : list (list Z))
  : M (list (list Z)) :=
  draws <- np_random_binomial1_size (Fin PR_ILLNESS_GIVEN_INFECTION)
                                    (Z.to_nat (sumZ (List.concat infected))) ;;
  match mask_assign (List.concat infected) draws with
  | Some ill => ret (reshape it np ill)
  | None =>
      raise (ValueError "NumPy boolean array indexing assignment cannot assign input values to the output values where the mask is true")
  end.

(** Steps 7 to 10: from the continuous doses to the infection and the
    illness outcome arrays, one row per iteration and one column per
    person. *)
Definition infect_and_sicken (it np : nat)
           (doses_continuous : list (list npfloat))
  : M (list (list Z) * list (list Z)) :=
  flat_doses <- discretize_dose (List.concat doses_continuous) ;;
  let doses_discrete := reshape it np flat_doses in
  let p_infection :=
    reshape it np
      (beta_binomial_infection_prob lnGamma
         (map (fun d => Fin (IZR d)) (List.concat doses_discrete))
         (Fin ALPHA) (Fin BETA)) in
  flat_infected <- np_random_binomial1 (List.concat p_infection) ;;
  let infected := reshape it np flat_infected in
  ill <- determine_illness it np infected ;;
  ret (infected, ill).

(** Steps 1 to 10 of [run_shellfish_qmra_advanced]. *)
Definition simulate_outcomes (fuel : nat) (a : qmra_args)
  : M (list (list Z) * list (list Z)) :=
  let it := iterations a in
  let np := num_people a in
  effluent_conc <- sample_effluent a ;;
  removal <- py_pow10 (log_removal_wwtp a) ;;
  let treated_conc := map (fun c => fdiv c removal) effluent_conc in
  dilution_sampled <- sample_ecdf (dilution_data a) it ;;
  let site_conc := map2 fdiv treated_conc dilution_sampled in
  mb <- sample_meals_and_bafs fuel a ;;
  infect_and_sicken it np (continuous_doses site_conc (fst mb) (snd mb)).

(** [run_shellfish_qmra_advanced]: the outcome arrays, step 11 (the counts
    of each iteration) and the result dictionary.  The progress bar is
    left out. *)
Definition run_shellfish_qmra_advanced (fuel : nat) (a : qmra_args)
  : M qmra_result :=
  outcomes <- simulate_outcomes fuel a ;;
  let total_infections_all := map sumZ (fst outcomes) in
  let total_illness_all := map sumZ (snd outcomes) in
  aggregate_results a total_infections_all total_illness_all.

End Orchestrator.

(** ** Reference instances, used to run the model on concrete inputs *)

(** [ln (x (x+1) ... (x+n-1))] *)
Fixpoint ln_rising (x : R) (n : nat) : R :=
  match n with
  | O => 0
  | S k => ln x + ln_rising (x + 1) k
  end.

(** A function with the recurrence of [ln Gamma],
    [f (x + 1) = f x + ln x] for [0 < x], normalised to [0] on [(0, 1)].
    At whole doses the dose-response model only uses differences
    [f (x + n) - f x], which are those of [ln Gamma]. *)
Definition lnGamma_rec (x : R) : R :=
  let n := Z.to_nat (Int_part x) in ln_rising (x - INR n) n.

(** A generator state given by the list of its next raw outputs (and [0]
    afterwards). *)
Definition rng_of_list (l : list N) : rng := mk_rng (fun i => nth i l 0%N) 0.

(** The generator after one more raw output has been consumed. *)
Definition advance (w : rng) : rng := mk_rng (stream w) (S (pos w)).

(** The generator after [n] more raw outputs have been consumed. *)
Definition advance_by (n : nat) (w : rng) : rng := mk_rng (stream w) (n + pos w).

(** The meal-size variate that [fisk.rvs] builds from the raw output [k]. *)
Definition meal_size_variate (k : N) : npfloat :=
  Fin (MEAL_SIZE_G + MEAL_SIZE_B * fisk_ppf MEAL_SIZE_A (unit_fraction k)).

(** A finite sample between the truncation bounds. *)
Definition meal_size_in_bounds (s : npfloat) : Prop :=
  exists r, s = Fin r /\ MEAL_SIZE_MIN <= r <= MEAL_SIZE_MAX.

(** The generator keeps producing acceptable meal-size variates: after
    every position of its stream there is one more. *)
Definition keeps_accepting (w : rng) : Prop :=
  forall i, exists j,
    (i <= j)%nat /\ meal_size_accepted (meal_size_variate (stream w j)) = true.

(** A generator state whose raw outputs alternate between [2^52] (the
    uniform variate [0.5]) and [0]. *)
Definition alternating_rng : rng :=
  mk_rng (fun i => if Nat.even i then 4503599627370496%N else 0%N) 0.

(** Number of variates the loop would accept among the next [fuel] raw
    outputs of the generator. *)
Fixpoint accepted_among (w : rng) (fuel : nat) : nat :=
  match fuel with
  | O => 0
  | S fuel' =>
      (if meal_size_accepted (meal_size_variate (stream w (pos w))) then 1 else 0)
      + accepted_among (advance w) fuel'
  end.

(** A finite value of magnitude at most [K]. *)
Definition mag_le (K : R) (x : npfloat) : Prop :=
  exists r, x = Fin r /\ - K <= r <= K.

(** A finite value of magnitude at least [dmin]. *)
Definition finite_at_least (dmin : R) (x : npfloat) : Prop :=
  exists r, x = Fin r /\ (dmin <= r \/ r <= - dmin).

(** The meal sizes of a run are available and of magnitude at most [Mx]:
    the fixed meal size in simple mode; in advanced mode with a fixed
    bioaccumulation factor, enough acceptable variates among the next
    [fuel] raw outputs of the generator in state [w]. *)
Definition meal_sizes_within (fuel : nat) (a : qmra_args) (w : rng) (Mx : R)
  : Prop :=
  if String.eqb (mode a) "advanced" then
    use_variable_baf a = false /\
    (iterations a * num_people a <= accepted_among w fuel)%nat /\
    MEAL_SIZE_MAX <= Mx
  else exists m, meal_size_fixed a = Fin m /\ - Mx <= m <= Mx.

(** The recurrence of [ln Gamma]. *)
Definition gamma_recurrence (f : R -> R) : Prop :=
  forall x, 0 < x -> f (x + 1) = f x + ln x.

(** A site in the shape of the end-to-end scenario of the specification:
    simple mode, hockey-stick effluent, fixed meal size and MHF. *)
Definition scenario_site : qmra_args :=
  {| site_name := "Site_A";
     dilution_data := [Fin 100; Fin 105; Fin 95; Fin 110];
     effluent_min := Fin 1;
     effluent_median := Fin 1000;
     effluent_max := Fin 100000;
     log_removal_wwtp := Fin 2.0;
     num_people := 100;
     iterations := 1000;
     mode := "simple";
     meal_size_fixed := Fin 50;
     mhf_fixed := Fin MHF_MEAN;
     use_hockey_stick := true;
     use_variable_baf := false |}.

(** A site with one scenario and one consumer, whose dose is [1] organism
    when the effluent variate is the median. *)
Definition unit_site : qmra_args :=
  {| site_name := "Unit";
     dilution_data := [Fin 1];
     effluent_min := Fin 0.5;
     effluent_median := Fin 1;
     effluent_max := Fin 2;
     log_removal_wwtp := Fin 0;
     num_people := 1;
     iterations := 1;
     mode := "simple";
     meal_size_fixed := Fin 1000;
     mhf_fixed := Fin 1;
     use_hockey_stick := true;
     use_variable_baf := false |}.



(** A standard normal quantile function is not needed in simple mode; the
    runs below are given this one. *)
Definition no_norm_ppf (u : R) : npfloat := Fin 0.

(** A generator state for two runs on the unit site: draws [0] and [5]
    are the uniform variate [0.5] (raw output [2^52]), the infection draw
    of the first run is [0], that of the second run is [0.5]. *)
Definition replay_rng : rng :=
  rng_of_list [4503599627370496; 0; 0; 0; 0; 4503599627370496; 0; 0;
               4503599627370496]%N.

(** A computation only consumes the generator: whatever its outcome, the
    stream is the same and the position has not gone back. *)
Definition forward {A : Type} (c : M A) : Prop :=
  forall w o w', c w = (o, w') -> stream w' = stream w /\ (pos w <= pos w')%nat.

(** A binary outcome. *)
Definition is_bit (b : Z) : Prop := b = 0%Z \/ b = 1%Z.

(** An individual is ill only if infected; both outcomes are bits. *)
Definition ill_only_if_infected (infected ill : Z) : Prop :=
  is_bit infected /\ is_bit ill /\ (ill = 1%Z -> infected = 1%Z).

(** ** Definitions used to state further properties *)

(** The meal-size variates of the next [fuel] raw outputs of the
    generator, in order. *)
Definition upcoming_variates (w : rng) (fuel : nat) : list npfloat :=
  map (fun i => meal_size_variate (stream w i)) (seq (pos w) fuel).

(** A value that is finite and at least [1], or [+inf]. *)
Definition at_least_one (x : npfloat) : Prop :=
  (exists r, x = Fin r /\ 1 <= r) \/ x = PInf.

(** A site whose effluent minimum and median coincide. *)
Definition flat_site : qmra_args :=
  {| site_name := "Flat";
     dilution_data := [Fin 100; Fin 105];
     effluent_min := Fin 1000;
     effluent_median := Fin 1000;
     effluent_max := Fin 100000;
     log_removal_wwtp := Fin 2.0;
     num_people := 100;
     iterations := 1000;
     mode := "advanced";
     meal_size_fixed := Fin 50;
     mhf_fixed := Fin MHF_MEAN;
     use_hockey_stick := true;
     use_variable_baf := false |}.

(** The configuration in which the application runs a site: variable
    meal sizes, a fixed bioaccumulation factor and the hockey-stick
    effluent distribution. *)
Definition application_site : qmra_args :=
  {| site_name := "Site_A";
     dilution_data := [Fin 100; Fin 105; Fin 95; Fin 110];
     effluent_min := Fin 1;
     effluent_median := Fin 1000;
     effluent_max := Fin 100000;
     log_removal_wwtp := Fin 2.0;
     num_people := 100;
     iterations := 1000;
     mode := "advanced";
     meal_size_fixed := Fin 50;
     mhf_fixed := Fin MHF_MEAN;
     use_hockey_stick := true;
     use_variable_baf := false |}.

(** A site without consumers. *)
Definition empty_population_site : qmra_args :=
  {| site_name := "Site_A";
     dilution_data := [Fin 100; Fin 105; Fin 95; Fin 110];
     effluent_min := Fin 1;
     effluent_median := Fin 1000;
     effluent_max := Fin 100000;
     log_removal_wwtp := Fin 2.0;
     num_people := 0;
     iterations := 1000;
     mode := "simple";
     meal_size_fixed := Fin 50;
     mhf_fixed := Fin MHF_MEAN;
     use_hockey_stick := true;
     use_variable_baf := false |}.

(** * Properties *)

(** ** Deciding comparisons of reals *)

Lemma Rleb_true a b : a <= b -> Rleb a b = true.
Proof. intros H; unfold Rleb; destruct (Rle_dec a b); [reflexivity | contradiction]. Qed.

Lemma Rleb_false a b : b < a -> Rleb a b = false.
Proof. intros H; unfold Rleb; destruct (Rle_dec a b); [lra | reflexivity]. Qed.

Lemma Rltb_true a b : a < b -> Rltb a b = true.
Proof. intros H; unfold Rltb; destruct (Rlt_dec a b); [reflexivity | contradiction]. Qed.

Lemma Rltb_false a b : b <= a -> Rltb a b = false.
Proof. intros H; unfold Rltb; destruct (Rlt_dec a b); [lra | reflexivity]. Qed.

Lemma Reqb_true a b : a = b -> Reqb a b = true.
Proof. intros H; unfold Reqb; destruct (Req_dec_T a b); [reflexivity | contradiction]. Qed.

Lemma Reqb_false a b : a <> b -> Reqb a b = false.
Proof. intros H; unfold Reqb; destruct (Req_dec_T a b); [contradiction | reflexivity]. Qed.

Lemma Rleb_spec a b : Rleb a b = true <-> a <= b.
Proof. unfold Rleb; destruct (Rle_dec a b); split; intros; try easy. Qed.

Lemma Rltb_spec a b : Rltb a b = true <-> a < b.
Proof. unfold Rltb; destruct (Rlt_dec a b); split; intros; try easy. Qed.

(** ** Dose-response model *)

Lemma MAXLGM_large : 2 ^ 63 + 1 <= MAXLGM.
Proof. unfold MAXLGM. lra. Qed.

Lemma gamma_pole_pos x : 0 < x -> gamma_pole x = false.
Proof. intros H; unfold gamma_pole; now rewrite Rleb_false. Qed.

Lemma gammaln_fin f x :
  gamma_pole x = false -> Rabs x <= MAXLGM -> gammaln f (Fin x) = Fin (f x).
Proof. intros Hp Hx; simpl. rewrite Hp. now rewrite Rltb_false. Qed.

Lemma gammaln_pos f x : 0 < x -> x <= MAXLGM -> gammaln f (Fin x) = Fin (f x).
Proof.
  intros H Hx. apply gammaln_fin; [now apply gamma_pole_pos|].
  rewrite Rabs_pos_eq; lra.
Qed.

Lemma gammaln_zero f : gammaln f (Fin 0) = PInf.
Proof.
  simpl; unfold gamma_pole. rewrite Rleb_true by lra.
  rewrite Reqb_true; [reflexivity|].
  rewrite <- (Int_part_spec 0 0); lra.
Qed.

Lemma gammaln_overflow f x : MAXLGM < x -> gammaln f (Fin x) = PInf.
Proof.
  intros H. simpl. destruct (gamma_pole x); [reflexivity|].
  rewrite Rltb_true; [reflexivity|].
  rewrite Rabs_pos_eq; [assumption|]. unfold MAXLGM in H. lra.
Qed.

Lemma clamp01_nan p : clamp01 p = NaN <-> p = NaN.
Proof. destruct p; simpl; split; intros H; try discriminate; reflexivity. Qed.

Lemma clamp01_range p : p <> NaN -> in_unit_interval (clamp01 p).
Proof.
  destruct p as [| |r|]; intros H; [contradiction| | |]; simpl.
  - exists (Rmin 0 1); split; [reflexivity|]. unfold Rmin; destruct (Rle_dec 0 1); lra.
  - exists (Rmin (Rmax r 0) 1); split; [reflexivity|].
    unfold Rmin, Rmax; destruct (Rle_dec r 0), (Rle_dec _ 1); lra.
  - exists 1; split; [reflexivity | lra].
Qed.

(** With finite parameters off the poles, the unclamped value at a finite
    dose [d >= 0] is a finite number as long as no [gammaln] overflows. *)
Lemma prob_unclamped_finite f a b d :
  0 < b -> 0 < a + b -> 0 <= d ->
  b + d <= MAXLGM -> a + b + d <= MAXLGM ->
  prob_unclamped f (Fin a) (Fin b) (Fin d)
  = Fin (1 - exp (f (b + d) + f (a + b) - f (a + b + d) - f b)).
Proof.
  intros Hb Hab Hd H1 H2. unfold prob_unclamped, log_prob_complement.
  cbn [fadd]. rewrite !gammaln_pos by lra. reflexivity.
Qed.

Lemma infection_prob1_finite f a b d :
  0 < b -> 0 < a + b -> 0 <= d ->
  b + d <= MAXLGM -> a + b + d <= MAXLGM ->
  infection_prob1 f (Fin a) (Fin b) (Fin d)
  = Fin (Rmin (Rmax (1 - exp (f (b + d) + f (a + b) - f (a + b + d) - f b)) 0) 1).
Proof.
  intros Hb Hab Hd H1 H2. unfold infection_prob1.
  now rewrite prob_unclamped_finite.
Qed.

(** C1, as the code has it.  Every entry of the result is the two-sided
    clamp of the unclamped value [1 - exp(...)], applied on every call with
    no condition.  The clamp bounds every value that is not NaN into
    [[0, 1]]; a NaN is not absorbed: the entry is NaN exactly when the
    unclamped value is.  With finite parameters [0 < beta] and
    [0 < alpha + beta] (the fixed [ALPHA] and [BETA] among them), a finite
    dose [>= 0] gives an entry of [[0, 1]] as long as the arguments of
    [gammaln] stay below its overflow, here for [beta + dose] and
    [alpha + beta + dose] up to [1e300]. *)
Theorem beta_binomial_infection_prob_clamped :
  forall (lnGamma : R -> R) (alpha beta : npfloat) (dose : list npfloat),
    Forall2
      (fun d p =>
         p = clamp01 (prob_unclamped lnGamma alpha beta d) /\
         (p = NaN <-> prob_unclamped lnGamma alpha beta d = NaN) /\
         (p <> NaN -> in_unit_interval p) /\
         (forall a b r, alpha = Fin a -> beta = Fin b -> d = Fin r ->
                        0 < b -> 0 < a + b -> 0 <= r ->
                        b + r <= 1e300 -> a + b + r <= 1e300 ->
                        in_unit_interval p))
      dose (beta_binomial_infection_prob lnGamma dose alpha beta).
Proof.
  intros f alpha beta dose. unfold beta_binomial_infection_prob.
  induction dose as [|d t IH]; simpl; constructor; [|exact IH].
  unfold infection_prob1. split; [reflexivity|]. split; [apply clamp01_nan|].
  split.
  - intros H. apply clamp01_range. intros E. apply H. now apply clamp01_nan.
  - intros a b r -> -> -> Hb Hab Hr H1 H2. apply clamp01_range.
    rewrite prob_unclamped_finite by (try assumption; unfold MAXLGM; lra).
    discriminate.
Qed.

Lemma beta_binomial_infection_prob_clamped_witness :
  0 < BETA /\ 0 < ALPHA + BETA /\ 0 <= 2.5 /\
  BETA + 2.5 <= 1e300 /\ ALPHA + BETA + 2.5 <= 1e300 /\
  in_unit_interval (infection_prob1 lnGamma_rec (Fin ALPHA) (Fin BETA) (Fin 2.5)).
Proof.
  assert (Hb : 0 < BETA) by (unfold BETA; lra).
  assert (Hab : 0 < ALPHA + BETA) by (unfold ALPHA, BETA; lra).
  assert (Hd : 0 <= 2.5) by lra.
  assert (H1 : BETA + 2.5 <= 1e300) by (unfold BETA; lra).
  assert (H2 : ALPHA + BETA + 2.5 <= 1e300) by (unfold ALPHA, BETA; lra).
  repeat split; try assumption.
  pose proof (beta_binomial_infection_prob_clamped
                lnGamma_rec (Fin ALPHA) (Fin BETA) [Fin 2.5]) as H.
  apply Forall2_cons_iff in H. destruct H as [(_ & _ & _ & H) _].
  exact (H ALPHA BETA 2.5 eq_refl eq_refl eq_refl Hb Hab Hd H1 H2).
Defined.


(** At the pole [beta = 0] the dose [0] gives [inf - inf]: the unclamped
    value is NaN and the clamp returns it. *)
Lemma infection_prob1_pole f a :
  0 < a -> a <= 1 -> infection_prob1 f (Fin a) (Fin 0) (Fin 0) = NaN.
Proof.
  intros Ha Ha1. unfold infection_prob1, prob_unclamped, log_prob_complement.
  cbn [fadd]. rewrite !Rplus_0_r. rewrite gammaln_zero.
  rewrite !gammaln_pos by (unfold MAXLGM; lra). reflexivity.
Qed.

(** C1 as stated fails: the dose [0] is finite and [>= 0], and with
    [beta = 0] the result is NaN, which the clamp has let through. *)
Lemma beta_binomial_infection_prob_nan_passes :
  Forall finite_nonneg [Fin 0] /\
  beta_binomial_infection_prob lnGamma_rec [Fin 0] (Fin ALPHA) (Fin 0) = [NaN] /\
  ~ Forall in_unit_interval
      (beta_binomial_infection_prob lnGamma_rec [Fin 0] (Fin ALPHA) (Fin 0)).
Proof.
  assert (E : beta_binomial_infection_prob lnGamma_rec [Fin 0] (Fin ALPHA) (Fin 0)
              = [NaN]).
  { unfold beta_binomial_infection_prob. simpl map.
    rewrite infection_prob1_pole by (unfold ALPHA; lra). reflexivity. }
  split; [|split; [exact E|]].
  - constructor; [|constructor]. exists 0. split; [reflexivity | lra].
  - rewrite E. intros H. apply Forall_inv in H. destruct H as [r [H _]]. discriminate.
Qed.

(** The same happens with the fixed parameters at a dose beyond the
    overflow of [gammaln]: at [1e306] two of the four terms are [+inf],
    their difference is NaN, and the clamp returns it. *)
Example infection_prob_nan_beyond_overflow :
  forall f : R -> R,
    beta_binomial_infection_prob f [Fin 1e306] (Fin ALPHA) (Fin BETA) = [NaN].
Proof.
  intros f. unfold beta_binomial_infection_prob. simpl map.
  unfold infection_prob1, prob_unclamped, log_prob_complement. cbn [fadd].
  rewrite (gammaln_overflow f (BETA + 1e306)) by (unfold BETA, MAXLGM; lra).
  rewrite (gammaln_overflow f (ALPHA + BETA + 1e306))
    by (unfold ALPHA, BETA, MAXLGM; lra).
  rewrite !gammaln_pos by (unfold ALPHA, BETA, MAXLGM; lra). reflexivity.
Qed.

(** ** Hockey-stick sampler *)

(** [field] on goals with decimal constants. *)
Ltac dec_field := unfold Q2R; cbn [QArith_base.Qnum QArith_base.Qden]; field.

(** Reduces an equation between two successful finite results to the
    equation between the reals. *)
Ltac fin_result :=
  match goal with
  | |- (Ok (Fin ?a), ?w) = (Ok (Fin ?b), ?w) =>
      let E := fresh "E" in
      assert (E : a = b); [| rewrite E; reflexivity]
  end.

Lemma py_truediv_fin a b w :
  b <> 0 -> py_truediv (Fin a) (Fin b) w = (Ok (Fin (a / b)), w).
Proof.
  intros Hb. unfold py_truediv, feq, fle, fdiv, ret.
  destruct (Rle_dec b 0) as [Hle|Hgt].
  - rewrite (Rleb_true b 0) by assumption. rewrite Rleb_false by lra.
    rewrite Reqb_false by assumption. reflexivity.
  - rewrite (Rleb_false b 0) by lra. rewrite Reqb_false by assumption. reflexivity.
Qed.

Lemma hockey_h1_fin x0 x50 w :
  x0 <> x50 -> hockey_h1 (Fin x0) (Fin x50) w = (Ok (Fin (/ (x50 - x0))), w).
Proof.
  intros H. unfold hockey_h1. cbn [fmul fsub fadd fneg].
  rewrite py_truediv_fin by lra. fin_result. dec_field. lra.
Qed.

Lemma hockey_lower_at_half x0 x50 w :
  x0 < x50 ->
  hockey_lower (Fin x0) (Fin x50) (Fin (/ (x50 - x0))) (Fin 0.5) w
  = (Ok (Fin x50), w).
Proof.
  intros H. unfold hockey_lower, bind. cbn [fmul fsub fadd fneg].
  assert (Hinv : / (x50 - x0) <> 0) by (apply Rinv_neq_0_compat; lra).
  rewrite py_truediv_fin by assumption.
  replace (0.5 * 2 * (x50 + - x0) / / (x50 - x0)) with ((x50 - x0) * (x50 - x0))
    by (dec_field; lra).
  unfold ret, fsqrt.
  rewrite Rltb_false by nra.
  rewrite sqrt_square by lra. cbn [fadd]. fin_result. lra.
Qed.

Lemma hockey_middle_fin x50 xp pb u w :
  pb <> 0.5 ->
  hockey_middle (Fin x50) (Fin xp) (Fin pb) (Fin u) w
  = (Ok (Fin (x50 + (u - 0.5) * (xp - x50) / (pb - 0.5))), w).
Proof.
  intros H. unfold hockey_middle, bind. cbn [fmul fsub fadd fneg].
  rewrite py_truediv_fin by lra. reflexivity.
Qed.

Lemma hockey_upper_fin x100 xp pb u w :
  pb <> 1 ->
  hockey_upper (Fin x100) (Fin xp) (Fin pb) (Fin u) w
  = (Ok (Fin (xp + (u - pb) * (x100 - xp) / (1 - pb))), w).
Proof.
  intros H. unfold hockey_upper, bind. cbn [fmul fsub fadd fneg].
  rewrite py_truediv_fin by lra. reflexivity.
Qed.

(** *** The boundaries in binary64 *)

Lemma SFcompare_refl x : sf_is_nan x = false -> SFcompare x x = Some Eq.
Proof.
  destruct x as [s|s| |s m e]; simpl; intros H; try discriminate; try reflexivity.
  - now destruct s.
  - rewrite Z.compare_refl, Pos.compare_cont_refl. now destruct s.
Qed.

Lemma is_nan_spec x : is_nan x = sf_is_nan (Prim2SF x).
Proof.
  unfold is_nan. rewrite FloatAxioms.eqb_spec. unfold SFeqb.
  destruct (sf_is_nan (Prim2SF x)) eqn:E.
  - destruct (Prim2SF x); try discriminate. reflexivity.
  - now rewrite SFcompare_refl.
Qed.

Lemma is_zero_spec x : is_zero x = sf_is_zero (Prim2SF x).
Proof.
  unfold is_zero. rewrite FloatAxioms.eqb_spec. unfold SFeqb.
  change (Prim2SF zero) with (S754_zero false).
  destruct (Prim2SF x) as [s|s| |s m e]; simpl; try reflexivity; now destruct s.
Qed.

Lemma is_infinity_spec x : is_infinity x = sf_is_infinity (Prim2SF x).
Proof.
  unfold is_infinity. rewrite FloatAxioms.eqb_spec, abs_spec. unfold SFeqb.
  change (Prim2SF infinity) with (S754_infinity false).
  destruct (Prim2SF x) as [s|s| |s m e]; simpl; reflexivity.
Qed.

Lemma is_finite_spec x : is_finite x = sf_is_finite (Prim2SF x).
Proof.
  unfold is_finite. rewrite is_nan_spec, is_infinity_spec.
  now destruct (Prim2SF x).
Qed.

(** A finite difference has finite operands. *)
Lemma sub_finite_operands x y :
  is_finite (x - y) = true -> is_finite x = true /\ is_finite y = true.
Proof.
  rewrite !is_finite_spec, sub_spec. unfold SF64sub.
  destruct (Prim2SF x) as [s|s| |s m e], (Prim2SF y) as [t|t| |t n k];
    simpl; try (intros; split; (reflexivity || discriminate));
    try (destruct s, t; simpl; intros; split; (reflexivity || discriminate)).
Qed.

Lemma finite_not_nan x : is_finite x = true -> is_nan x = false.
Proof.
  rewrite is_finite_spec, is_nan_spec. now destruct (Prim2SF x).
Qed.

(** [x - x] is a zero when [x] is finite. *)
Lemma sub_diag_zero x : is_finite x = true -> is_zero (x - x) = true.
Proof.
  rewrite is_zero_spec, is_finite_spec, sub_spec. unfold SF64sub.
  destruct (Prim2SF x) as [s|s| |s m e]; try discriminate; intros _.
  - now destruct s.
  - cbn [SFsub]. rewrite Z.min_id. unfold shl_align. rewrite Z.sub_diag.
    reflexivity.
Qed.

(** A zero times a finite value is a zero. *)
Lemma mul_zero_finite z d :
  is_zero z = true -> is_finite d = true -> is_zero (z * d) = true.
Proof.
  rewrite !is_zero_spec, is_finite_spec, mul_spec. unfold SF64mul.
  destruct (Prim2SF z); try discriminate.
  destruct (Prim2SF d); try discriminate; reflexivity.
Qed.

(** A zero divided by a number that is not zero is a zero. *)
Lemma div_zero_nonzero z q :
  is_zero z = true -> is_nan q = false -> is_zero q = false ->
  is_zero (z / q) = true.
Proof.
  rewrite !is_zero_spec, is_nan_spec, div_spec. unfold SF64div.
  destruct (Prim2SF z); try discriminate.
  destruct (Prim2SF q); try discriminate; reflexivity.
Qed.

(** Adding a zero leaves a number as it is, up to the sign of a zero,
    which [==] does not see. *)
Lemma add_zero_eqb x z :
  is_nan x = false -> is_zero z = true -> (x + z =? x)%float = true.
Proof.
  rewrite is_nan_spec, is_zero_spec. intros Hx Hz.
  rewrite FloatAxioms.eqb_spec, add_spec. unfold SFeqb, SF64add.
  destruct (Prim2SF z) as [sz| | |]; try discriminate.
  destruct (Prim2SF x) as [s|s| |s m e]; try discriminate.
  - simpl. destruct s, sz; reflexivity.
  - simpl. now destruct s.
  - cbn [SFadd]. now rewrite SFcompare_refl.
Qed.

Lemma hockey_middle_64_at_half x50 xp pb :
  is_finite (xp - x50) = true ->
  is_finite (pb - 0.5) = true -> is_zero (pb - 0.5) = false ->
  (hockey_middle_64 x50 xp pb 0.5 =? x50)%float = true.
Proof.
  intros Hd Hq Hq0. unfold hockey_middle_64.
  destruct (sub_finite_operands _ _ Hd) as [_ H50].
  apply add_zero_eqb; [now apply finite_not_nan|].
  apply div_zero_nonzero; [|now apply finite_not_nan|assumption].
  apply mul_zero_finite; [|assumption].
  now apply sub_diag_zero.
Qed.

Lemma hockey_upper_64_at_break x100 xp pb :
  is_finite (x100 - xp) = true ->
  is_finite (1 - pb) = true -> is_zero (1 - pb) = false ->
  (hockey_upper_64 x100 xp pb pb =? xp)%float = true.
Proof.
  intros Hd Hq Hq0. unfold hockey_upper_64.
  destruct (sub_finite_operands _ _ Hd) as [_ Hxp].
  destruct (sub_finite_operands _ _ Hq) as [_ Hpb].
  apply add_zero_eqb; [now apply finite_not_nan|].
  apply div_zero_nonzero; [|now apply finite_not_nan|assumption].
  apply mul_zero_finite; [|assumption].
  now apply sub_diag_zero.
Qed.

(** C5, as the code has it.  In the binary64 arithmetic of the source,
    with [xp] as the sampler computes it: whenever the differences
    [xp - x50] and [x100 - xp] are finite and the divisors
    [breakpoint - 0.5] and [1 - breakpoint] are finite and not zero (which
    leaves out only overflow and a breakpoint equal to [0.5] or [1]), the
    middle branch at [u = 0.5] is equal to [x50] and the upper branch at
    [u = breakpoint] is equal to [xp = x50 + (x100 - x50) * breakpoint],
    with no rounding error at all; equal as [==] compares two floats,
    which tells all values apart but the two zeros.  The other two values
    of the claim, the lower branch at [u = 0.5] and the middle branch at
    [u = breakpoint], are rounded: see [hockey_stick_boundaries_rounded]. *)
Theorem hockey_stick_boundaries_64 :
  forall x50 x100 pb : float,
    let xp := hockey_xp_64 x50 x100 pb in
    is_finite (xp - x50) = true ->
    is_finite (x100 - xp) = true ->
    is_finite (pb - 0.5) = true -> is_zero (pb - 0.5) = false ->
    is_finite (1 - pb) = true -> is_zero (1 - pb) = false ->
    (hockey_middle_64 x50 xp pb 0.5 =? x50)%float = true /\
    (hockey_upper_64 x100 xp pb pb =? xp)%float = true.
Proof.
  intros x50 x100 pb xp H1 H2 H3 H4 H5 H6. split.
  - now apply hockey_middle_64_at_half.
  - now apply hockey_upper_64_at_break.
Qed.

Lemma hockey_stick_boundaries_64_witness :
  let xp := hockey_xp_64 100 10000 percentile_break_64 in
  xp = 9505%float /\
  (hockey_middle_64 100 xp percentile_break_64 0.5 =? 100)%float = true /\
  (hockey_upper_64 10000 xp percentile_break_64 percentile_break_64 =? xp)%float
  = true.
Proof.
  split; [reflexivity|].
  apply (hockey_stick_boundaries_64 100 10000 percentile_break_64); reflexivity.
Defined.

(** C5 as stated fails in binary64.  With the default breakpoint,
    minimum [1], median [100] and maximum [10000], the middle branch at
    [u = breakpoint] gives [9505.000000000002] where [xp] is [9505.0]; with
    minimum [41.331] and median [3500.751], the lower branch at [u = 0.5]
    gives [3500.7509999999997] where the median is [3500.751]. *)
Lemma hockey_stick_boundaries_rounded :
  let pb := percentile_break_64 in
  let xp := hockey_xp_64 100 10000 pb in
  let x0 := 0x1.4aa5e353f7ceep+5%float in
  let x50 := 0x1.b598083126e98p+11%float in
  ((1 <? 100) && (100 <? 10000) && (0.5 <? pb) && (pb <? 1))%float = true /\
  xp = 9505%float /\
  hockey_middle_64 100 xp pb pb = 0x1.2908000000001p+13%float /\
  (hockey_middle_64 100 xp pb pb =? xp)%float = false /\
  (x0 <? x50)%float = true /\
  hockey_lower_64 x0 x50 (hockey_h1_64 x0 x50) 0.5 = 0x1.b598083126e97p+11%float /\
  (hockey_lower_64 x0 x50 (hockey_h1_64 x0 x50) 0.5 =? x50)%float = false.
Proof. vm_compute. repeat split. Qed.

(** X13.  Over the real numbers, that is with every operation of the
    three formulas exact: for [x0 < x50 < x100] and a breakpoint in
    [(0.5, 1)], with [h1] and [xp] as the sampler computes them, at
    [u = 0.5] the lower and the middle formula both give [x50], at
    [u = breakpoint] the middle and the upper formula both give
    [xp = x50 + (x100 - x50) * breakpoint]; no branch raises or draws.
    In binary64 two of these four equalities are lost to rounding, see
    [hockey_stick_boundaries_rounded]. *)
Theorem hockey_formulas_continuous_over_reals :
  forall (x0 x50 x100 pb : R) (w : rng),
    x0 < x50 -> x50 < x100 -> 0.5 < pb -> pb < 1 ->
    let xp := hockey_xp (Fin x50) (Fin x100) (Fin pb) in
    exists h1,
      hockey_h1 (Fin x0) (Fin x50) w = (Ok h1, w) /\
      xp = Fin (x50 + (x100 - x50) * pb) /\
      hockey_lower (Fin x0) (Fin x50) h1 (Fin 0.5) w = (Ok (Fin x50), w) /\
      hockey_middle (Fin x50) xp (Fin pb) (Fin 0.5) w = (Ok (Fin x50), w) /\
      hockey_middle (Fin x50) xp (Fin pb) (Fin pb) w = (Ok xp, w) /\
      hockey_upper (Fin x100) xp (Fin pb) (Fin pb) w = (Ok xp, w) /\
      hockey_transform (Fin x0) (Fin x50) (Fin x100) (Fin pb) h1 xp (Fin 0.5) w
      = (Ok (Fin x50), w) /\
      hockey_transform (Fin x0) (Fin x50) (Fin x100) (Fin pb) h1 xp (Fin pb) w
      = (Ok xp, w).
Proof.
  intros x0 x50 x100 pb w H0 H1 Hp0 Hp1 xp.
  exists (Fin (/ (x50 - x0))).
  assert (Exp : xp = Fin (x50 + (x100 - x50) * pb)) by reflexivity.
  assert (Elow := hockey_lower_at_half x0 x50 w H0).
  assert (Emid1 : hockey_middle (Fin x50) xp (Fin pb) (Fin 0.5) w = (Ok (Fin x50), w)).
  { rewrite Exp, hockey_middle_fin by lra. fin_result. dec_field. lra. }
  assert (Emid2 : hockey_middle (Fin x50) xp (Fin pb) (Fin pb) w = (Ok xp, w)).
  { rewrite Exp, hockey_middle_fin by lra. fin_result. dec_field. lra. }
  assert (Eup : hockey_upper (Fin x100) xp (Fin pb) (Fin pb) w = (Ok xp, w)).
  { rewrite Exp, hockey_upper_fin by lra. fin_result. dec_field. lra. }
  repeat split; try assumption.
  - apply hockey_h1_fin. lra.
  - unfold hockey_transform, fle. rewrite Rleb_true by lra. exact Elow.
  - unfold hockey_transform, fle. rewrite Rleb_false by lra.
    rewrite Rleb_true by lra. exact Emid2.
Qed.

Lemma hockey_formulas_continuous_over_reals_witness :
  1 < 1000 /\ 1000 < 100000 /\ 0.5 < 0.95 /\ 0.95 < 1 /\
  exists h1,
    hockey_h1 (Fin 1) (Fin 1000) (rng_of_list []) = (Ok h1, rng_of_list []) /\
    hockey_lower (Fin 1) (Fin 1000) h1 (Fin 0.5) (rng_of_list [])
    = (Ok (Fin 1000), rng_of_list []) /\
    hockey_upper (Fin 100000) (hockey_xp (Fin 1000) (Fin 100000) (Fin 0.95))
                 (Fin 0.95) (Fin 0.95) (rng_of_list [])
    = (Ok (hockey_xp (Fin 1000) (Fin 100000) (Fin 0.95)), rng_of_list []).
Proof.
  assert (H0 : 1 < 1000) by lra. assert (H1 : 1000 < 100000) by lra.
  assert (H2 : 0.5 < 0.95) by lra. assert (H3 : 0.95 < 1) by lra.
  repeat split; try assumption.
  destruct (hockey_formulas_continuous_over_reals 1 1000 100000 0.95 (rng_of_list []) H0 H1 H2 H3)
    as (h1 & Eh & _ & El & _ & _ & Eu & _).
  exists h1. repeat split; assumption.
Defined.

(** ** The generator and the effect monad *)

Lemma advance_by_0 w : advance_by 0 w = w.
Proof. now destruct w. Qed.

Lemma advance_by_S n w : advance_by n (advance w) = advance_by (S n) w.
Proof. unfold advance_by, advance; simpl. f_equal. lia. Qed.

Lemma advance_by_add n m w : advance_by m (advance_by n w) = advance_by (n + m) w.
Proof. unfold advance_by; simpl. f_equal. lia. Qed.

Lemma next_raw_eq w : next_raw w = (Ok (stream w (pos w)), advance w).
Proof. reflexivity. Qed.

Lemma np_random_random_eq w :
  np_random_random w = (Ok (unit_fraction (stream w (pos w))), advance w).
Proof. reflexivity. Qed.

Lemma unit_fraction_range k : 0 <= unit_fraction k < 1.
Proof.
  unfold unit_fraction.
  assert (Hm : (k mod two53 < two53)%N) by (apply N.mod_lt; discriminate).
  assert (H2 : 0 < IZR (Z.of_N two53)) by (apply IZR_lt; reflexivity).
  assert (H0 : 0 <= IZR (Z.of_N (k mod two53))) by (apply IZR_le, N2Z.is_nonneg).
  assert (H1 : IZR (Z.of_N (k mod two53)) < IZR (Z.of_N two53))
    by (apply IZR_lt; now apply N2Z.inj_lt).
  split.
  - apply Rmult_le_pos; [assumption | left; now apply Rinv_0_lt_compat].
  - apply (Rmult_lt_reg_r (IZR (Z.of_N two53))); [assumption|].
    unfold Rdiv. rewrite Rmult_assoc, Rinv_l by lra. lra.
Qed.

(** A computation that makes one draw and always succeeds, repeated [n]
    times: [n] results, [n] draws. *)
Lemma replicateM_one_draw {A : Type} (c : M A) (P : A -> Prop) :
  (forall w, exists x, c w = (Ok x, advance w) /\ P x) ->
  forall n w, exists xs,
    replicateM n c w = (Ok xs, advance_by n w) /\
    List.length xs = n /\ Forall P xs.
Proof.
  intros Hc. induction n as [|n IH]; intros w.
  - exists []. simpl. unfold ret. rewrite advance_by_0. repeat split. constructor.
  - destruct (Hc w) as [x [Ex Px]]. destruct (IH (advance w)) as [xs [Exs [Hl Hf]]].
    exists (x :: xs). simpl. unfold bind. rewrite Ex, Exs. unfold ret.
    rewrite advance_by_S. repeat split; [simpl; now rewrite Hl | now constructor].
Qed.

(** ** Empirical-CDF resampler *)

Lemma np_random_choice_nonempty a n w :
  a <> [] ->
  exists samples,
    np_random_choice a n w = (Ok samples, advance_by n w) /\
    List.length samples = n /\ Forall (fun s => In s a) samples.
Proof.
  intros Ha. destruct a as [|x t]; [contradiction|]. unfold np_random_choice.
  apply replicateM_one_draw. intros w0. eexists. split.
  - unfold bind. rewrite next_raw_eq. reflexivity.
  - apply nth_In. apply Nat.mod_upper_bound. discriminate.
Qed.


Lemma sample_ecdf_nonempty data n w :
  drop_nan data <> [] ->
  exists samples,
    sample_ecdf data n w = (Ok samples, advance_by n w) /\
    List.length samples = n /\
    Forall (fun s => In s (drop_nan data)) samples.
Proof.
  intros NE. unfold sample_ecdf.
  destruct (drop_nan data) as [|x t] eqn:E; [contradiction|].
  cbn [List.length Nat.eqb].
  exact (np_random_choice_nonempty (x :: t) n w NE).
Qed.



(** ** Truncated log-logistic meal-size sampler *)

Lemma Forall_firstn_keep {A : Type} (P : A -> Prop) (n : nat) (l : list A) :
  Forall P l -> Forall P (firstn n l).
Proof.
  intros H. revert n. induction H as [|x l Hx Hl IH]; intros [|n]; simpl;
    constructor; auto.
Qed.

Lemma meal_size_accepted_bounds s :
  meal_size_accepted s = true -> meal_size_in_bounds s.
Proof.
  unfold meal_size_accepted. intros H. apply andb_prop in H. destruct H as [H1 H2].
  destruct s as [| |r|]; simpl in H1, H2; try discriminate.
  exists r. split; [reflexivity|]. split; now apply Rleb_spec.
Qed.

Lemma fisk_rvs_eq w :
  fisk_rvs MEAL_SIZE_A MEAL_SIZE_G MEAL_SIZE_B w
  = (Ok (meal_size_variate (stream w (pos w))), advance w).
Proof. reflexivity. Qed.

(** The loop keeps the samples it holds in bounds, never raises, and stops
    with [n_samples] of them as soon as the generator has supplied enough
    acceptable variates within the fuel. *)
Lemma meal_size_loop_ok n :
  forall fuel samples w,
    Forall meal_size_in_bounds samples ->
    (n <= List.length samples + accepted_among w fuel)%nat ->
    exists out w',
      meal_size_loop fuel n samples w = (Ok out, w') /\
      (n <= List.length out)%nat /\ Forall meal_size_in_bounds out.
Proof.
  induction fuel as [|fuel IH]; intros samples w Hs Hn.
  - simpl in Hn. simpl.
    destruct (List.length samples <? n)%nat eqn:E.
    + apply Nat.ltb_lt in E. lia.
    + exists samples, w. unfold ret. apply Nat.ltb_ge in E. now repeat split.
  - cbn [meal_size_loop].
    destruct (List.length samples <? n)%nat eqn:E.
    + unfold bind. rewrite fisk_rvs_eq. cbn [accepted_among] in Hn.
      fold (meal_size_accepted (meal_size_variate (stream w (pos w)))).
      destruct (meal_size_accepted (meal_size_variate (stream w (pos w)))) eqn:Ea.
      * apply IH.
        -- apply Forall_app. split; [assumption|].
           constructor; [now apply meal_size_accepted_bounds | constructor].
        -- rewrite length_app. simpl. lia.
      * apply IH; [assumption | lia].
    + exists samples, w. unfold ret. apply Nat.ltb_ge in E. now repeat split.
Qed.

(** Whatever the fuel, a result of the loop is in bounds and has the
    requested length when it started with fewer samples. *)
Lemma meal_size_loop_partial n :
  forall fuel samples w out w',
    Forall meal_size_in_bounds samples ->
    (List.length samples <= n)%nat ->
    meal_size_loop fuel n samples w = (Ok out, w') ->
    List.length out = n /\ Forall meal_size_in_bounds out.
Proof.
  induction fuel as [|fuel IH]; intros samples w out w' Hs Hl; cbn [meal_size_loop];
    destruct (List.length samples <? n)%nat eqn:E.
  - discriminate.
  - unfold ret. intros H; inversion H; subst. apply Nat.ltb_ge in E. split; [lia | assumption].
  - unfold bind. rewrite fisk_rvs_eq.
    fold (meal_size_accepted (meal_size_variate (stream w (pos w)))).
    apply Nat.ltb_lt in E.
    destruct (meal_size_accepted (meal_size_variate (stream w (pos w)))) eqn:Ea.
    + apply IH.
      * apply Forall_app. split; [assumption|].
        constructor; [now apply meal_size_accepted_bounds | constructor].
      * rewrite length_app. simpl. lia.
    + apply IH; [assumption | lia].
  - unfold ret. intros H; inversion H; subst. apply Nat.ltb_ge in E. split; [lia | assumption].
Qed.

Lemma accepted_among_add w a b :
  accepted_among w (a + b)
  = (accepted_among w a + accepted_among (advance_by a w) b)%nat.
Proof.
  revert w. induction a as [|a IH]; intros w.
  - simpl. now rewrite advance_by_0.
  - cbn [Nat.add accepted_among]. rewrite IH, advance_by_S. lia.
Qed.

(** A generator that keeps producing acceptable variates supplies any
    number of them within some finite number of draws. *)
Lemma accepted_among_unbounded w :
  keeps_accepting w ->
  forall n, exists fuel, (n <= accepted_among w fuel)%nat.
Proof.
  intros Hfair. induction n as [|n [fuel IH]].
  - exists 0%nat. apply Nat.le_0_l.
  - destruct (Hfair (pos w + fuel)%nat) as [j [Hj Hacc]].
    exists (fuel + (S (j - (pos w + fuel))))%nat.
    rewrite accepted_among_add.
    replace (S (j - (pos w + fuel))) with ((j - (pos w + fuel)) + 1)%nat by lia.
    rewrite accepted_among_add. cbn [accepted_among].
    rewrite !advance_by_add. cbn [advance_by stream pos].
    replace (fuel + (j - (pos w + fuel)) + pos w)%nat with j by lia.
    rewrite Hacc. lia.
Qed.

Lemma sample_meal_size_loglogistic_enough n fuel w :
  (n <= accepted_among w fuel)%nat ->
  exists samples w',
    sample_meal_size_loglogistic fuel n w = (Ok samples, w') /\
    List.length samples = n /\ Forall meal_size_in_bounds samples.
Proof.
  intros Hn.
  destruct (meal_size_loop_ok n fuel [] w (Forall_nil _) Hn) as (out & w' & E & Hl & Hf).
  exists (firstn n out), w'. unfold sample_meal_size_loglogistic, bind. rewrite E.
  unfold ret. split; [reflexivity|]. split.
  - rewrite length_firstn. lia.
  - now apply Forall_firstn_keep.
Qed.

(** C7.  For every requested count [n_samples] the sampler returns exactly
    [n_samples] samples, each between [MEAL_SIZE_MIN = 5] and
    [MEAL_SIZE_MAX = 800].  The loop has no cap: it returns, after finitely
    many draws, from every generator state that keeps producing acceptable
    variates; and whatever the bound on the draws, an array it returns has
    exactly [n_samples] samples within the bounds. *)
Theorem sample_meal_size_loglogistic_bounds :
  forall (n_samples : nat) (w : rng),
    (keeps_accepting w ->
     exists fuel samples w',
       sample_meal_size_loglogistic fuel n_samples w = (Ok samples, w') /\
       List.length samples = n_samples /\
       Forall (fun s => exists r, s = Fin r /\ 5 <= r <= 800) samples) /\
    (forall fuel samples w',
       sample_meal_size_loglogistic fuel n_samples w = (Ok samples, w') ->
       List.length samples = n_samples /\
       Forall (fun s => exists r, s = Fin r /\ 5 <= r <= 800) samples).
Proof.
  intros n w.
  assert (Hb : forall l, Forall meal_size_in_bounds l ->
                         Forall (fun s => exists r, s = Fin r /\ 5 <= r <= 800) l).
  { intros l. apply Forall_impl. intros s [r [-> Hr]]. exists r.
    unfold MEAL_SIZE_MIN, MEAL_SIZE_MAX in Hr. split; [reflexivity | lra]. }
  split.
  - intros Hfair. destruct (accepted_among_unbounded w Hfair n) as [fuel Hn].
    destruct (sample_meal_size_loglogistic_enough n fuel w Hn) as (samples & w' & E & Hl & Hf).
    exists fuel, samples, w'. repeat split; auto.
  - intros fuel samples w'. unfold sample_meal_size_loglogistic, bind.
    destruct (meal_size_loop fuel n [] w) as [[out| |] w1] eqn:E; try discriminate.
    unfold ret. intros H; inversion H; subst.
    destruct (meal_size_loop_partial n fuel [] w out w' (Forall_nil _)
                                     (Nat.le_0_l n) E) as [Hl Hf].
    split.
    + rewrite length_firstn. lia.
    + apply Hb. now apply Forall_firstn_keep.
Qed.

Lemma unit_fraction_zero : unit_fraction 0 = 0.
Proof.
  unfold unit_fraction, two53.
  change (Z.of_N (0 mod 9007199254740992)) with 0%Z. lra.
Qed.

Lemma unit_fraction_half : unit_fraction 4503599627370496 = 0.5.
Proof.
  unfold unit_fraction, two53.
  change (Z.of_N (4503599627370496 mod 9007199254740992)) with 4503599627370496%Z.
  change (Z.of_N 9007199254740992) with 9007199254740992%Z. lra.
Qed.

Lemma fisk_ppf_zero c : fisk_ppf c 0 = 0.
Proof. unfold fisk_ppf. now rewrite Reqb_true. Qed.

Lemma fisk_ppf_half c : fisk_ppf c 0.5 = 1.
Proof.
  unfold fisk_ppf. rewrite Reqb_false by lra.
  replace (0.5 / (1 - 0.5)) with 1 by lra.
  unfold Rpower. rewrite ln_1, Rmult_0_r. apply exp_0.
Qed.

(** The median variate is accepted, the variate at [u = 0] (below the
    lower bound) is rejected. *)
Lemma meal_size_variate_half_accepted :
  meal_size_accepted (meal_size_variate 4503599627370496) = true.
Proof.
  unfold meal_size_accepted, meal_size_variate.
  rewrite unit_fraction_half, fisk_ppf_half. unfold fle.
  unfold MEAL_SIZE_MIN, MEAL_SIZE_MAX, MEAL_SIZE_G, MEAL_SIZE_B.
  now rewrite !Rleb_true by lra.
Qed.

Lemma meal_size_variate_zero_rejected :
  meal_size_accepted (meal_size_variate 0) = false.
Proof.
  unfold meal_size_accepted, meal_size_variate.
  rewrite unit_fraction_zero, fisk_ppf_zero. unfold fle.
  unfold MEAL_SIZE_MIN, MEAL_SIZE_MAX, MEAL_SIZE_G, MEAL_SIZE_B.
  now rewrite Rleb_false by lra.
Qed.

Lemma meal_size_loop_done fuel n samples w :
  (n <= List.length samples)%nat ->
  meal_size_loop fuel n samples w = (Ok samples, w).
Proof.
  intros H. destruct fuel; cbn [meal_size_loop];
    (replace (List.length samples <? n)%nat with false
      by (symmetry; now apply Nat.ltb_ge)); reflexivity.
Qed.

Lemma meal_size_loop_accept fuel n samples w k :
  (List.length samples < n)%nat -> stream w (pos w) = k ->
  meal_size_accepted (meal_size_variate k) = true ->
  meal_size_loop (S fuel) n samples w
  = meal_size_loop fuel n (samples ++ [meal_size_variate k]) (advance w).
Proof.
  intros Hl Hk Ha. cbn [meal_size_loop].
  replace (List.length samples <? n)%nat with true
    by (symmetry; now apply Nat.ltb_lt).
  unfold bind. rewrite fisk_rvs_eq, Hk.
  fold (meal_size_accepted (meal_size_variate k)). now rewrite Ha.
Qed.

Lemma meal_size_loop_reject fuel n samples w k :
  (List.length samples < n)%nat -> stream w (pos w) = k ->
  meal_size_accepted (meal_size_variate k) = false ->
  meal_size_loop (S fuel) n samples w = meal_size_loop fuel n samples (advance w).
Proof.
  intros Hl Hk Ha. cbn [meal_size_loop].
  replace (List.length samples <? n)%nat with true
    by (symmetry; now apply Nat.ltb_lt).
  unfold bind. rewrite fisk_rvs_eq, Hk.
  fold (meal_size_accepted (meal_size_variate k)). now rewrite Ha.
Qed.

(** A generator that returns the median variate on every second draw. *)
Lemma alternating_keeps_accepting : keeps_accepting alternating_rng.
Proof.
  intros i. exists (2 * i)%nat. split; [lia|].
  unfold alternating_rng. cbn [stream].
  replace (Nat.even (2 * i)) with true
    by (symmetry; apply Nat.even_spec; now exists i).
  apply meal_size_variate_half_accepted.
Defined.

Lemma sample_meal_size_loglogistic_bounds_witness :
  keeps_accepting alternating_rng /\
  exists fuel samples w',
    sample_meal_size_loglogistic fuel 3 alternating_rng = (Ok samples, w') /\
    List.length samples = 3%nat /\
    Forall (fun s => exists r, s = Fin r /\ 5 <= r <= 800) samples.
Proof.
  split; [exact alternating_keeps_accepting|].
  exact (proj1 (sample_meal_size_loglogistic_bounds 3 alternating_rng)
               alternating_keeps_accepting).
Defined.

(** With the draws bounded by [3], the same generator state gives two
    samples: the variate at [u = 0] is rejected and redrawn. *)
Example sample_meal_size_two_of_three :
  exists samples w',
    sample_meal_size_loglogistic
      3 2 (rng_of_list [4503599627370496; 0; 4503599627370496]%N)
    = (Ok samples, w') /\ List.length samples = 2%nat /\ pos w' = 3%nat.
Proof.
  unfold sample_meal_size_loglogistic, bind.
  rewrite (meal_size_loop_accept _ _ _ _ 4503599627370496)
    by (reflexivity || (simpl; lia) || apply meal_size_variate_half_accepted).
  rewrite (meal_size_loop_reject _ _ _ _ 0)
    by (reflexivity || (simpl; lia) || apply meal_size_variate_zero_rejected).
  rewrite (meal_size_loop_accept _ _ _ _ 4503599627370496)
    by (reflexivity || (simpl; lia) || apply meal_size_variate_half_accepted).
  rewrite meal_size_loop_done by (simpl; lia).
  do 2 eexists. repeat split.
Qed.

(** ** Binomial draws *)

Lemma bernoulli_eq p w :
  bernoulli p w
  = (Ok (if flt (Fin (unit_fraction (stream w (pos w)))) p then 1%Z else 0%Z),
     advance w).
Proof. reflexivity. Qed.

Lemma bernoulli_bit p w :
  exists b, bernoulli p w = (Ok b, advance w) /\ (b = 0%Z \/ b = 1%Z).
Proof.
  rewrite bernoulli_eq. eexists. split; [reflexivity|].
  destruct (flt _ p); auto.
Qed.

(** One Bernoulli draw per probability: as many bits as probabilities, as
    many draws, no exception. *)
Lemma mapM_bernoulli p :
  forall w, exists bs,
    mapM bernoulli p w = (Ok bs, advance_by (List.length p) w) /\
    List.length bs = List.length p /\
    Forall (fun b => b = 0%Z \/ b = 1%Z) bs.
Proof.
  induction p as [|x p IH]; intros w.
  - exists []. simpl. unfold ret. rewrite advance_by_0. repeat split. constructor.
  - destruct (bernoulli_bit x w) as [b [Eb Hb]].
    destruct (IH (advance w)) as [bs [Ebs [Hl Hf]]].
    exists (b :: bs). cbn [mapM]. unfold bind. rewrite Eb, Ebs. unfold ret.
    cbn [List.length]. rewrite advance_by_S.
    repeat split; [simpl; now rewrite Hl | now constructor].
Qed.

Lemma np_random_binomial1_valid p w :
  forallb valid_prob p = true ->
  exists bs,
    np_random_binomial1 p w = (Ok bs, advance_by (List.length p) w) /\
    List.length bs = List.length p /\
    Forall (fun b => b = 0%Z \/ b = 1%Z) bs.
Proof. intros H. unfold np_random_binomial1. rewrite H. apply mapM_bernoulli. Qed.

Lemma np_random_binomial1_invalid p w :
  forallb valid_prob p = false ->
  np_random_binomial1 p w
  = (Raise (ValueError "p < 0, p > 1 or p contains NaNs"), w).
Proof. intros H. unfold np_random_binomial1. now rewrite H. Qed.

(** ** Dose discretizer *)

Lemma Int_part_bounds r : IZR (Int_part r) <= r < IZR (Int_part r) + 1.
Proof. destruct (base_Int_part r). lra. Qed.

Lemma Int_part_nonneg r : 0 <= r -> (0 <= Int_part r)%Z.
Proof.
  intros H. destruct (Int_part_bounds r) as [_ H1].
  assert (H2 : IZR (-1) < IZR (Int_part r)) by (simpl; lra).
  apply lt_IZR in H2. lia.
Qed.

Lemma Int_part_int64 r :
  - 2 ^ 63 <= r < 2 ^ 63 -> (INT64_MIN <= Int_part r <= INT64_MAX)%Z.
Proof.
  intros [Hlo Hhi]. destruct (Int_part_bounds r) as [H1 H2].
  assert (A : IZR (INT64_MIN - 1) < IZR (Int_part r))
    by (unfold INT64_MIN; simpl; lra).
  assert (B : IZR (Int_part r) < IZR (INT64_MAX + 1))
    by (unfold INT64_MAX; simpl; lra).
  apply lt_IZR in A, B. lia.
Qed.

(** Within the range of [int64] the cast is exact. *)
Lemma integer_part_int64 r :
  - 2 ^ 63 <= r < 2 ^ 63 -> integer_part (Fin r) = Int_part r.
Proof.
  intros H. destruct (Int_part_int64 r H) as [A B]. unfold integer_part.
  apply Z.leb_le in A, B. now rewrite A, B.
Qed.

(** Outside it the cast gives [INT64_MIN]. *)
Lemma integer_part_overflow r :
  r < - 2 ^ 63 \/ 2 ^ 63 <= r -> integer_part (Fin r) = INT64_MIN.
Proof.
  intros H. unfold integer_part.
  destruct (INT64_MIN <=? Int_part r)%Z eqn:A; [|reflexivity].
  destruct (Int_part r <=? INT64_MAX)%Z eqn:B; [|reflexivity].
  exfalso. apply Z.leb_le in A, B. apply IZR_le in A, B.
  destruct (Int_part_bounds r) as [H1 H2].
  unfold INT64_MIN, INT64_MAX in *. destruct H as [H | H]; lra.
Qed.

Lemma fractional_part_fin r :
  - 2 ^ 63 <= r < 2 ^ 63 ->
  fractional_part (Fin r) = Fin (r - IZR (Int_part r)).
Proof.
  intros H. unfold fractional_part. rewrite integer_part_int64 by assumption.
  reflexivity.
Qed.

(** The binomial draw accepts the fractional part of exactly the doses
    whose floor is in the range of [int64]. *)
Lemma fractional_part_valid d :
  int64_dose d -> valid_prob (fractional_part d) = true.
Proof.
  intros [r [-> Hr]]. rewrite fractional_part_fin by assumption.
  unfold valid_prob, fle.
  destruct (Int_part_bounds r). now rewrite !Rleb_true by lra.
Qed.

Lemma fractional_part_valid_inv d :
  valid_prob (fractional_part d) = true -> int64_dose d.
Proof.
  destruct d as [| |r|]; try discriminate. intros H.
  exists r. split; [reflexivity|].
  destruct (Rlt_dec r (- 2 ^ 63)) as [A|A];
    [|destruct (Rle_dec (2 ^ 63) r) as [B|B]; [|lra]]; exfalso.
  - unfold fractional_part in H. rewrite integer_part_overflow in H by now left.
    unfold valid_prob, fle in H. cbn [fsub fneg fadd] in H.
    unfold INT64_MIN in H. rewrite Rleb_false in H by lra. discriminate.
  - unfold fractional_part in H. rewrite integer_part_overflow in H by now right.
    unfold valid_prob, fle in H. cbn [fsub fneg fadd] in H.
    unfold INT64_MIN in H. rewrite (Rleb_false _ 1) in H by lra.
    now rewrite andb_false_r in H.
Qed.

Lemma fractional_parts_valid dose :
  Forall int64_dose dose ->
  forallb valid_prob (map fractional_part dose) = true.
Proof.
  induction 1 as [|d t Hd Ht IH]; [reflexivity|].
  simpl. now rewrite fractional_part_valid, IH.
Qed.

Lemma fractional_parts_invalid dose :
  Exists (fun d => ~ int64_dose d) dose ->
  forallb valid_prob (map fractional_part dose) = false.
Proof.
  induction 1 as [d t Hd | d t Ht IH]; simpl.
  - destruct (valid_prob (fractional_part d)) eqn:E; [|reflexivity].
    exfalso. apply Hd. now apply fractional_part_valid_inv.
  - rewrite IH. apply andb_false_r.
Qed.

Lemma discretize_dose_eq dose :
  discretize_dose dose
  = (fractional_organisms <- np_random_binomial1 (map fractional_part dose) ;;
     ret (map (fun '(i, b) => (i + b)%Z)
              (combine (map integer_part dose) fractional_organisms))).
Proof. reflexivity. Qed.

(** Entry by entry, the output is the floor plus one of the two bits; the
    bit is only set for a dose with a fractional part. *)
Lemma combine_floor_bits dose bs :
  Forall int64_dose dose ->
  Forall2 (fun d b => b = 0%Z \/
                      (b = 1%Z /\ flt (Fin 0) (fractional_part d) = true))
          dose bs ->
  Forall2
    (fun d x => exists r, d = Fin r /\
                          ((x = Int_part r)%Z \/
                           ((x = Int_part r + 1)%Z /\ IZR (Int_part r) < r)))
    dose
    (map (fun '(i, b) => (i + b)%Z) (combine (map integer_part dose) bs)).
Proof.
  intros Hd Hb. induction Hb as [|d b t bs Hb0 Hbs IH]; [constructor|].
  inversion Hd as [|? ? [r [-> Hr]] Ht]; subst.
  cbn [map combine]. constructor; [|now apply IH].
  exists r. split; [reflexivity|]. rewrite integer_part_int64 by assumption.
  destruct Hb0 as [-> | [-> Hfrac]]; [left; lia | right; split; [reflexivity|]].
  rewrite fractional_part_fin in Hfrac by assumption.
  unfold flt in Hfrac. apply Rltb_spec in Hfrac. lra.
Qed.

(** One Bernoulli draw per probability, each bit set only where the
    probability is positive. *)
Lemma mapM_bernoulli_positive p :
  forall w, exists bs,
    mapM bernoulli p w = (Ok bs, advance_by (List.length p) w) /\
    Forall2 (fun q b => b = 0%Z \/ (b = 1%Z /\ flt (Fin 0) q = true)) p bs.
Proof.
  induction p as [|q p IH]; intros w.
  - exists []. simpl. unfold ret. rewrite advance_by_0. split; constructor.
  - destruct (IH (advance w)) as [bs [Ebs Hbs]].
    cbn [mapM]. unfold bind. rewrite bernoulli_eq, Ebs. unfold ret.
    eexists. cbn [List.length]. rewrite advance_by_S. split; [reflexivity|].
    constructor; [|exact Hbs].
    destruct (flt (Fin (unit_fraction (stream w (pos w)))) q) eqn:E;
      [right | now left].
    split; [reflexivity|].
    destruct (unit_fraction_range (stream w (pos w))) as [Hu _].
    destruct q as [| |q|]; try discriminate; [|reflexivity].
    unfold flt in *. apply Rltb_spec in E. apply Rltb_spec. lra.
Qed.

(** The sampler on doses that [int64] can hold. *)
Lemma discretize_dose_int64 dose w :
  Forall int64_dose dose ->
  exists out,
    discretize_dose dose w = (Ok out, advance_by (List.length dose) w) /\
    Forall2
      (fun d x => exists r, d = Fin r /\
                            ((x = Int_part r)%Z \/
                             ((x = Int_part r + 1)%Z /\ IZR (Int_part r) < r)))
      dose out.
Proof.
  intros Hd.
  destruct (mapM_bernoulli_positive (map fractional_part dose) w) as [bs [Ebs Hbs]].
  rewrite length_map in Ebs.
  eexists. split.
  - rewrite discretize_dose_eq. unfold bind, np_random_binomial1.
    rewrite fractional_parts_valid by assumption. rewrite Ebs. reflexivity.
  - apply combine_floor_bits; [assumption|].
    clear - Hbs. remember (map fractional_part dose) as ps eqn:E.
    revert dose E. induction Hbs as [|q b ps bs H Hbs IH]; intros dose E.
    + destruct dose; [constructor | discriminate].
    + destruct dose as [|d dose]; [discriminate|]. injection E as -> ->.
      constructor; [exact H | now apply IH].
Qed.

(** *** The law reading *)

Lemma expectation_app {A : Type} (f : A -> R) (d d' : dist A) :
  expectation f (d ++ d') = expectation f d + expectation f d'.
Proof.
  induction d as [|[a w] d IH]; simpl; [lra | rewrite IH; lra].
Qed.

Lemma expectation_scale {A : Type} (f : A -> R) (c : R) (d : dist A) :
  expectation f (scale c d) = c * expectation f d.
Proof.
  induction d as [|[a w] d IH]; simpl; [lra | rewrite IH; lra].
Qed.

Lemma total_mass_expectation {A : Type} (d : dist A) :
  total_mass d = expectation (fun _ => 1) d.
Proof.
  induction d as [|[a w] d IH]; simpl; [reflexivity | rewrite IH; lra].
Qed.

Lemma expectation_const {A : Type} (c : R) (d : dist A) :
  expectation (fun _ => c) d = c * total_mass d.
Proof.
  induction d as [|[a w] d IH]; simpl; [lra | rewrite IH; lra].
Qed.

Lemma expectation_ext {A : Type} (P : A -> Prop) (f g : A -> R) (d : dist A) :
  Forall (fun ow => P (fst ow)) d -> (forall a, P a -> f a = g a) ->
  expectation f d = expectation g d.
Proof.
  intros Hd Hfg. induction Hd as [|[a w] d Ha Hd IH]; simpl; [reflexivity|].
  rewrite IH, (Hfg a Ha). reflexivity.
Qed.

Lemma expectation_law_sum {A B : Type} (f : B -> R) (k : A -> law B) :
  forall (d : dist A) (D : dist B),
    law_sum d k = Law D ->
    expectation f D = expectation (fun a => expect f (k a)) d.
Proof.
  induction d as [|[a w] d IH]; intros D H; simpl in H.
  - injection H as <-. reflexivity.
  - destruct (k a) as [da|e] eqn:Ea; [|discriminate].
    destruct (law_sum d k) as [dt|e] eqn:Et; [|discriminate].
    injection H as <-. rewrite expectation_app, expectation_scale.
    simpl. rewrite Ea, (IH dt eq_refl). reflexivity.
Qed.

Lemma supported_outcomes {A : Type} (P : A -> Prop) (d : dist A) :
  supported P d -> Forall (fun ow => P (fst ow)) d.
Proof. apply Forall_impl. now intros ow [H _]. Qed.

Lemma law_sum_supported {A B : Type} (P : A -> Prop) (Q : B -> Prop)
      (k : A -> law B) :
  (forall a, P a -> exists da, k a = Law da /\ supported Q da) ->
  forall d, supported P d ->
    exists D, law_sum d k = Law D /\ supported Q D.
Proof.
  intros Hk d Hd. induction Hd as [|[a w] d [Ha Hw] Hd [dt [Et Ht]]]; simpl.
  - exists []. split; [reflexivity | constructor].
  - destruct (Hk a Ha) as [da [Ea Hda]]. rewrite Ea, Et.
    eexists. split; [reflexivity|].
    apply Forall_app. split; [|exact Ht].
    unfold scale. apply Forall_map. eapply Forall_impl; [|exact Hda].
    intros [b v] [Hb Hv]. simpl in *. split; [assumption|].
    now apply Rmult_le_pos.
Qed.

(** The law of the binomial draws: independent bits, the bit of entry [i]
    set with probability [p_i]. *)
Lemma law_mapM_bernoulli ps :
  Forall (fun p => exists q, p = Fin q /\ 0 <= q <= 1) ps ->
  exists D,
    law_mapM bernoulli_law ps = Law D /\
    supported (fun bs => List.length bs = List.length ps) D /\
    total_mass D = 1 /\
    forall i q (g : Z -> R),
      nth_error ps i = Some (Fin q) ->
      expectation (fun bs => g (nth i bs 0%Z)) D = q * g 1%Z + (1 - q) * g 0%Z.
Proof.
  induction 1 as [|p ps [q [-> Hq]] Hps (D' & E' & Hs' & Hm' & Hg')].
  - exists [([], 1)]. split; [reflexivity|]. split.
    + constructor; [|constructor]. simpl. split; [reflexivity | lra].
    + split; [simpl; lra|]. intros [|i] q g H; discriminate.
  - cbn [law_mapM]. rewrite E'.
    set (k := fun x : Z => law_bind (Law D') (fun xs => law_ret (x :: xs))).
    assert (Hk : forall x,
               exists dx, k x = Law dx /\
                 supported (fun bs => List.length bs = S (List.length ps)) dx /\
                 forall f, expectation f dx = expectation (fun xs => f (x :: xs)) D').
    { intros x. unfold k, law_bind.
      destruct (law_sum_supported
                  (fun bs => List.length bs = List.length ps)
                  (fun bs => List.length bs = S (List.length ps))
                  (fun xs => law_ret (x :: xs))) with (d := D') as [dx [Ex Hx]].
      - intros xs Hl. eexists. split; [reflexivity|].
        constructor; [|constructor]. simpl. split; [now rewrite Hl | lra].
      - exact Hs'.
      - exists dx. split; [exact Ex|]. split; [exact Hx|].
        intros f. rewrite (expectation_law_sum f _ D' dx Ex).
        apply (expectation_ext (fun _ => True)); [now apply Forall_forall|].
        intros xs _. simpl. lra. }
    destruct (Hk 1%Z) as (d1 & E1 & Hs1 & Hf1).
    destruct (Hk 0%Z) as (d0 & E0 & Hs0 & Hf0).
    unfold bernoulli_law, law_bind. cbn [success_probability law_sum].
    fold (k 1%Z). fold (k 0%Z). rewrite E1, E0. cbn [law_sum].
    eexists. split; [reflexivity|].
    assert (Hexp : forall f,
               expectation f (scale q d1 ++ scale (1 - q) d0 ++ [])
               = q * expectation (fun xs => f (1%Z :: xs)) D'
                 + (1 - q) * expectation (fun xs => f (0%Z :: xs)) D').
    { intros f. rewrite !expectation_app, !expectation_scale, Hf1, Hf0.
      simpl. lra. }
    split; [|split].
    + apply Forall_app. split; [|apply Forall_app; split; [|constructor]].
      * unfold scale. apply Forall_map. eapply Forall_impl; [|exact Hs1].
        intros [b v] [Hb Hv]. simpl in *. split; [assumption|].
        apply Rmult_le_pos; lra.
      * unfold scale. apply Forall_map. eapply Forall_impl; [|exact Hs0].
        intros [b v] [Hb Hv]. simpl in *. split; [assumption|].
        apply Rmult_le_pos; lra.
    + rewrite total_mass_expectation, Hexp, <- !total_mass_expectation, Hm'. lra.
    + intros [|i] q' g Hi; rewrite Hexp; cbn [nth].
      * injection Hi as <-. rewrite !expectation_const, Hm'. lra.
      * cbn [nth_error] in Hi. rewrite (Hg' i q' g Hi). lra.
Qed.

Lemma nth_combine_sum ints :
  forall bs i,
    List.length bs = List.length ints -> (i < List.length ints)%nat ->
    nth i (map (fun '(z, b) => (z + b)%Z) (combine ints bs)) 0%Z
    = (nth i ints 0 + nth i bs 0)%Z.
Proof.
  induction ints as [|z ints IH]; intros [|b bs] i Hl Hi; try discriminate;
    simpl in Hi; [lia|].
  destruct i as [|i]; [reflexivity|]. cbn [combine map nth].
  apply IH; [now injection Hl | lia].
Qed.

(** The law of the discretizer on doses that [int64] can hold: entry [i]
    is the floor of the dose plus one with the probability of its
    fractional part, and the floor otherwise. *)
Lemma discretize_dose_law_int64 dose :
  Forall int64_dose dose ->
  exists D,
    discretize_dose_law dose = Law D /\
    supported (fun out => List.length out = List.length dose) D /\
    total_mass D = 1 /\
    forall i r (g : Z -> R),
      nth_error dose i = Some (Fin r) ->
      expectation (fun out => g (nth i out 0%Z)) D
      = (r - IZR (Int_part r)) * g (Int_part r + 1)%Z
        + (1 - (r - IZR (Int_part r))) * g (Int_part r).
Proof.
  intros Hd.
  assert (Hps : Forall (fun p => exists q, p = Fin q /\ 0 <= q <= 1)
                       (map fractional_part dose)).
  { apply Forall_map. eapply Forall_impl; [|exact Hd].
    intros d [r [-> Hr]]. rewrite fractional_part_fin by assumption.
    eexists. split; [reflexivity|]. destruct (Int_part_bounds r). lra. }
  destruct (law_mapM_bernoulli _ Hps) as (Db & Eb & Hsb & Hmb & Hgb).
  rewrite length_map in Hsb.
  set (h := fun bs : list Z =>
              map (fun '(z, b) => (z + b)%Z) (combine (map integer_part dose) bs)).
  destruct (law_sum_supported
              (fun bs => List.length bs = List.length dose)
              (fun out => List.length out = List.length dose)
              (fun bs => law_ret (h bs))) with (d := Db) as [D [ED HD]].
  { intros bs Hl. eexists. split; [reflexivity|].
    constructor; [|constructor]. simpl. split; [|lra].
    unfold h. now rewrite length_map, length_combine, length_map, Hl, Nat.min_id. }
  { exact Hsb. }
  exists D.
  assert (EL : discretize_dose_law dose = Law D).
  { unfold discretize_dose_law, discretize_dose_in.
    cbn [as_law eff_bind eff_ret binomial1]. unfold binomial1_law.
    rewrite fractional_parts_valid by assumption. rewrite Eb. exact ED. }
  assert (Hexp : forall f, expectation f D = expectation (fun bs => f (h bs)) Db).
  { intros f. rewrite (expectation_law_sum f _ Db D ED).
    apply (expectation_ext (fun _ => True)); [now apply Forall_forall|].
    intros bs _. simpl. lra. }
  split; [exact EL|]. split; [exact HD|]. split.
  - rewrite total_mass_expectation, Hexp, <- total_mass_expectation. exact Hmb.
  - intros i r g Hi. rewrite Hexp.
    assert (Hlt : (i < List.length dose)%nat)
      by (apply nth_error_Some; rewrite Hi; discriminate).
    assert (Hr : - 2 ^ 63 <= r < 2 ^ 63).
    { apply nth_error_In in Hi. rewrite Forall_forall in Hd.
      destruct (Hd _ Hi) as [r' [E Hr']]. now injection E as <-. }
    rewrite (expectation_ext
               (fun bs => List.length bs = List.length dose) _
               (fun bs => g (Int_part r + nth i bs 0)%Z)).
    + rewrite (Hgb i (r - IZR (Int_part r)) (fun b => g (Int_part r + b)%Z)).
      * now rewrite Z.add_0_r.
      * rewrite nth_error_map, Hi. cbn [option_map].
        now rewrite fractional_part_fin by assumption.
    + exact (supported_outcomes
               (fun bs => List.length bs = List.length dose) Db Hsb).
    + intros bs Hl. unfold h.
      rewrite nth_combine_sum by (rewrite length_map; assumption).
      f_equal. f_equal.
      rewrite <- (integer_part_int64 r Hr).
      apply nth_error_nth. now rewrite nth_error_map, Hi.
Qed.

(** C4, as the code has it.  For an array of finite doses [d] with
    [0 <= d < 2^63], [discretize_dose] makes one draw per entry and
    returns, for each entry, the floor of [d] or the floor plus one, a
    non-negative integer, the extra organism only for a dose with a
    fractional part.  In the law of the result, entry [i] is the floor
    plus one with the probability of the fractional remainder
    [d - floor d] and the floor otherwise, so that its expected value is
    [d]. *)
Theorem discretize_dose_unbiased :
  forall (dose : list npfloat) (w : rng),
    Forall (fun d => exists r, d = Fin r /\ 0 <= r < 2 ^ 63) dose ->
    (exists out,
       discretize_dose dose w = (Ok out, advance_by (List.length dose) w) /\
       Forall2
         (fun d x =>
            exists r, d = Fin r /\
              (x = Int_part r \/ x = Int_part r + 1)%Z /\ (0 <= x)%Z /\
              IZR (Int_part r) <= r < IZR (Int_part r) + 1)
         dose out) /\
    (exists D,
       discretize_dose_law dose = Law D /\
       supported (fun out => List.length out = List.length dose) D /\
       total_mass D = 1 /\
       forall i r,
         nth_error dose i = Some (Fin r) ->
         (forall g : Z -> R,
            expectation (fun out => g (nth i out 0%Z)) D
            = (r - IZR (Int_part r)) * g (Int_part r + 1)%Z
              + (1 - (r - IZR (Int_part r))) * g (Int_part r)) /\
         expectation (fun out => IZR (nth i out 0%Z)) D = r).
Proof.
  intros dose w Hd.
  assert (Hd' : Forall int64_dose dose).
  { eapply Forall_impl; [|exact Hd]. intros d [r [-> Hr]].
    exists r. split; [reflexivity | lra]. }
  split.
  - destruct (discretize_dose_int64 dose w Hd') as [out [E H]].
    exists out. split; [exact E|].
    clear E. induction H as [|d x t t' [r [-> Hx]] Ht IH]; [constructor|].
    inversion Hd as [|? ? [r' [Er Hr]] Hd0]; subst. injection Er as <-.
    inversion Hd' as [|? ? _ Hd0']; subst.
    constructor; [|now apply IH].
    exists r. split; [reflexivity|]. pose proof (Int_part_nonneg r (proj1 Hr)).
    split; [|split; [|apply Int_part_bounds]].
    + destruct Hx as [-> | [-> _]]; auto.
    + destruct Hx as [-> | [-> _]]; lia.
  - destruct (discretize_dose_law_int64 dose Hd') as (D & E & Hs & Hm & Hg).
    exists D. split; [exact E|]. split; [exact Hs|]. split; [exact Hm|].
    intros i r Hi. split; [intros g; now apply Hg|].
    rewrite (Hg i r IZR Hi), plus_IZR. lra.
Qed.

Lemma discretize_dose_unbiased_witness :
  Forall (fun d => exists r, d = Fin r /\ 0 <= r < 2 ^ 63) [Fin 2.25; Fin 0] /\
  (exists out,
     discretize_dose [Fin 2.25; Fin 0] (rng_of_list [0; 0]%N)
     = (Ok out, advance_by 2 (rng_of_list [0; 0]%N)) /\
     List.length out = 2%nat) /\
  (exists D,
     discretize_dose_law [Fin 2.25; Fin 0] = Law D /\
     total_mass D = 1 /\
     expectation (fun out => IZR (nth 0 out 0%Z)) D = 2.25).
Proof.
  assert (Hd : Forall (fun d => exists r, d = Fin r /\ 0 <= r < 2 ^ 63)
                      [Fin 2.25; Fin 0]).
  { repeat constructor; eexists; (split; [reflexivity | lra]). }
  split; [exact Hd|].
  destruct (discretize_dose_unbiased [Fin 2.25; Fin 0] (rng_of_list [0; 0]%N) Hd)
    as [[out [E H]] (D & EL & _ & Hm & Hg)].
  split.
  - exists out. split; [exact E|]. symmetry. exact (Forall2_length H).
  - exists D. split; [exact EL|]. split; [exact Hm|].
    exact (proj2 (Hg 0%nat 2.25 eq_refl)).
Defined.

(** C4 as stated fails beyond the range of [int64]: the dose [1e19] is
    finite and [>= 0], its floor does not fit the integer array, and the
    binomial draw refuses the fractional part that results; no output is
    produced. *)
Lemma discretize_dose_overflows_int64 :
  finite_nonneg (Fin 1e19) /\
  discretize_dose [Fin 1e19] (rng_of_list [])
  = (Raise (ValueError "p < 0, p > 1 or p contains NaNs"), rng_of_list []).
Proof.
  split; [exists 1e19; split; [reflexivity | lra]|].
  rewrite discretize_dose_eq. unfold bind.
  rewrite np_random_binomial1_invalid; [reflexivity|].
  apply fractional_parts_invalid. left. intros [r [E Hr]].
  injection E as <-. lra.
Qed.

(** ** Shapes *)

Lemma firstn_plus {A : Type} (a b : nat) (l : list A) :
  firstn (a + b) l = firstn a l ++ firstn b (skipn a l).
Proof.
  revert l. induction a as [|a IH]; intros l; [reflexivity|].
  destruct l as [|x l]; simpl.
  - now rewrite firstn_nil.
  - now rewrite IH.
Qed.

Lemma In_firstn_keep {A : Type} (n : nat) (l : list A) (x : A) :
  In x (firstn n l) -> In x l.
Proof.
  revert l. induction n as [|n IH]; intros [|y l]; simpl; try tauto.
  intros [H | H]; [now left | right; now apply IH].
Qed.

Lemma concat_reshape {A : Type} (rows cols : nat) (l : list A) :
  List.concat (reshape rows cols l) = firstn (rows * cols) l.
Proof.
  revert l. induction rows as [|r IH]; intros l; [reflexivity|].
  cbn [reshape List.concat]. rewrite IH.
  replace (S r * cols)%nat with (cols + r * cols)%nat by lia.
  now rewrite firstn_plus.
Qed.

Lemma reshape_firstn {A : Type} (rows cols : nat) (l : list A) :
  reshape rows cols (firstn (rows * cols) l) = reshape rows cols l.
Proof.
  revert l. induction rows as [|r IH]; intros l; [reflexivity|].
  cbn [reshape]. replace (S r * cols)%nat with (cols + r * cols)%nat by lia.
  f_equal.
  - rewrite firstn_firstn. f_equal. lia.
  - rewrite <- (IH (skipn cols l)). f_equal.
    rewrite skipn_firstn_comm. f_equal. lia.
Qed.

Lemma length_reshape {A : Type} (rows cols : nat) (l : list A) :
  List.length (reshape rows cols l) = rows.
Proof. revert l. induction rows; intros l; simpl; auto. Qed.

Lemma Forall2_firstn {A B : Type} (R : A -> B -> Prop) n l l' :
  Forall2 R l l' -> Forall2 R (firstn n l) (firstn n l').
Proof.
  intros H. revert n. induction H; intros [|n]; simpl; constructor; auto.
Qed.

Lemma Forall2_skipn {A B : Type} (R : A -> B -> Prop) n l l' :
  Forall2 R l l' -> Forall2 R (skipn n l) (skipn n l').
Proof.
  intros H. revert n. induction H; intros [|n]; simpl; try constructor; auto.
Qed.

Lemma Forall2_reshape {A B : Type} (R : A -> B -> Prop) rows cols l l' :
  Forall2 R l l' ->
  Forall2 (Forall2 R) (reshape rows cols l) (reshape rows cols l').
Proof.
  revert l l'. induction rows as [|r IH]; intros l l' H; simpl; constructor.
  - now apply Forall2_firstn.
  - apply IH. now apply Forall2_skipn.
Qed.

(** ** Illness is drawn for the infected only *)

Lemma mask_assign_sound infected :
  Forall is_bit infected ->
  forall values ill,
    Forall is_bit values ->
    mask_assign infected values = Some ill ->
    Forall2 ill_only_if_infected infected ill.
Proof.
  induction 1 as [|i t Hi Ht IH]; intros values ill Hv; cbn [mask_assign].
  - destruct values; [|discriminate]. intros H; inversion H. constructor.
  - destruct (i =? 1)%Z eqn:E.
    + apply Z.eqb_eq in E. subst i.
      destruct values as [|v vs]; [discriminate|].
      inversion Hv as [|? ? Hv0 Hvs]; subst.
      destruct (mask_assign t vs) as [r|] eqn:Er; [|discriminate].
      intros H; inversion H; subst. constructor; [|now apply (IH vs)].
      repeat split; auto; now right.
    + apply Z.eqb_neq in E.
      destruct (mask_assign t values) as [r|] eqn:Er; [|discriminate].
      intros H; inversion H; subst. constructor; [|now apply (IH values)].
      repeat split; auto; try (now left); discriminate.
Qed.

Lemma sumZ_bits_nonneg l : Forall is_bit l -> (0 <= sumZ l)%Z.
Proof.
  induction 1 as [|b t Hb Ht IH]; [simpl; lia|].
  change (sumZ (b :: t)) with (b + sumZ t)%Z. destruct Hb as [-> | ->]; lia.
Qed.

(** On bits the sum counts the ones, so the assignment finds as many
    values as selected entries. *)
Lemma mask_assign_total infected :
  Forall is_bit infected ->
  forall values,
    List.length values = Z.to_nat (sumZ infected) ->
    exists ill, mask_assign infected values = Some ill.
Proof.
  induction 1 as [|i t Hi Ht IH]; intros values Hl; cbn [mask_assign].
  - destruct values; [now eexists | discriminate].
  - pose proof (sumZ_bits_nonneg t Ht) as Hnn.
    change (sumZ (i :: t)) with (i + sumZ t)%Z in Hl.
    destruct Hi as [-> | ->]; cbn [Z.eqb].
    + destruct (IH values) as [r Er]; [now rewrite Hl|]. rewrite Er. now eexists.
    + destruct values as [|v vs]; cbn [List.length] in Hl; [lia|].
      destruct (IH vs) as [r Er]; [lia|]. rewrite Er. now eexists.
Qed.

Lemma sumZ_ill_le infected ill :
  Forall2 ill_only_if_infected infected ill ->
  (0 <= sumZ ill <= sumZ infected)%Z.
Proof.
  induction 1 as [|i l t t' (Hi & Hl & Himp) Ht IH]; [simpl; lia|].
  change (sumZ (l :: t')) with (l + sumZ t')%Z.
  change (sumZ (i :: t)) with (i + sumZ t)%Z.
  destruct Hl as [-> | ->]; [destruct Hi as [-> | ->]; lia|].
  rewrite (Himp eq_refl). lia.
Qed.

Lemma bind_ok_inv {A B : Type} (c : M A) (k : A -> M B) w b w' :
  bind c k w = (Ok b, w') ->
  exists a w1, c w = (Ok a, w1) /\ k a w1 = (Ok b, w').
Proof.
  unfold bind. destruct (c w) as [[a| |] w1]; try discriminate.
  intros H. now exists a, w1.
Qed.

Lemma np_random_binomial1_ok_inv p w bs w' :
  np_random_binomial1 p w = (Ok bs, w') ->
  Forall is_bit bs /\ List.length bs = List.length p /\
  w' = advance_by (List.length p) w.
Proof.
  destruct (forallb valid_prob p) eqn:E.
  - destruct (np_random_binomial1_valid p w E) as [bs0 [E0 [Hl Hb]]].
    rewrite E0. intros H; inversion H; subst. now repeat split.
  - rewrite np_random_binomial1_invalid by assumption. discriminate.
Qed.

Lemma np_random_binomial1_size_valid p n w :
  valid_prob p = true ->
  exists bs,
    np_random_binomial1_size p n w = (Ok bs, advance_by n w) /\
    List.length bs = n /\ Forall is_bit bs.
Proof.
  intros H. unfold np_random_binomial1_size. rewrite H.
  apply replicateM_one_draw. intros w0. apply bernoulli_bit.
Qed.

Lemma valid_prob_illness : valid_prob (Fin PR_ILLNESS_GIVEN_INFECTION) = true.
Proof.
  unfold valid_prob, fle, PR_ILLNESS_GIVEN_INFECTION. now rewrite !Rleb_true by lra.
Qed.

(** The illness array has the shape of the infection array, draws one
    Bernoulli outcome per infected entry, and is [1] only where the
    infection array is. *)
Lemma determine_illness_spec it np infected w :
  Forall is_bit (List.concat infected) ->
  exists ill_flat,
    determine_illness it np infected w
    = (Ok (reshape it np ill_flat),
       advance_by (Z.to_nat (sumZ (List.concat infected))) w) /\
    Forall2 ill_only_if_infected (List.concat infected) ill_flat.
Proof.
  intros Hb. unfold determine_illness, bind.
  destruct (np_random_binomial1_size_valid
              (Fin PR_ILLNESS_GIVEN_INFECTION)
              (Z.to_nat (sumZ (List.concat infected))) w valid_prob_illness)
    as [draws [Ed [Hl Hd]]].
  rewrite Ed.
  destruct (mask_assign_total _ Hb draws Hl) as [ill_flat Ei]. rewrite Ei.
  exists ill_flat. split; [reflexivity|].
  exact (mask_assign_sound _ Hb draws ill_flat Hd Ei).
Qed.

Lemma Forall2_sums infected ill :
  Forall2 (Forall2 ill_only_if_infected) infected ill ->
  Forall2 (fun inf il => (0 <= il <= inf)%Z /\ (inf = 0%Z -> il = 0%Z))
          (map sumZ infected) (map sumZ ill).
Proof.
  induction 1 as [|x y t t' Hxy Ht IH]; simpl; constructor; [|exact IH].
  pose proof (sumZ_ill_le x y Hxy). split; lia.
Qed.

(** The outcome arrays have one row per iteration, and in them an
    individual is ill only if infected. *)
Lemma infect_and_sicken_spec f it np doses w infected ill w' :
  infect_and_sicken f it np doses w = (Ok (infected, ill), w') ->
  List.length infected = it /\
  List.length ill = it /\
  Forall2 (Forall2 ill_only_if_infected) infected ill.
Proof.
  intros H. unfold infect_and_sicken in H.
  apply bind_ok_inv in H as (flat_doses & w4 & _ & H).
  apply bind_ok_inv in H as (flat_infected & w5 & Einf & H).
  apply bind_ok_inv in H as (ill0 & w6 & Eill & H).
  unfold ret in H. inversion H; subst infected ill0 w6. clear H.
  apply np_random_binomial1_ok_inv in Einf as (Hbits & _ & _).
  assert (Hc : Forall is_bit (List.concat (reshape it np flat_infected))).
  { rewrite concat_reshape. now apply Forall_firstn_keep. }
  destruct (determine_illness_spec it np (reshape it np flat_infected) w5 Hc)
    as [ill_flat [E Hrel]].
  rewrite E in Eill. inversion Eill; subst ill. clear Eill.
  rewrite !length_reshape. split; [reflexivity|]. split; [reflexivity|].
  rewrite <- (reshape_firstn it np flat_infected).
  apply Forall2_reshape. now rewrite <- concat_reshape.
Qed.

(** Steps 1 to 6 of a run whose outcome arrays exist. *)
Lemma simulate_outcomes_inv f g fuel a w outcomes w' :
  simulate_outcomes f g fuel a w = (Ok outcomes, w') ->
  exists doses w0,
    infect_and_sicken f (iterations a) (num_people a) doses w0
    = (Ok outcomes, w').
Proof.
  intros H. unfold simulate_outcomes in H.
  apply bind_ok_inv in H as (effluent & w1 & _ & H).
  apply bind_ok_inv in H as (removal & w2 & _ & H).
  apply bind_ok_inv in H as (dilution & w3 & _ & H).
  apply bind_ok_inv in H as (mb & w4 & _ & H).
  eexists _, _. exact H.
Qed.

Lemma simulate_outcomes_spec f g fuel a w infected ill w' :
  simulate_outcomes f g fuel a w = (Ok (infected, ill), w') ->
  List.length infected = iterations a /\
  List.length ill = iterations a /\
  Forall2 (Forall2 ill_only_if_infected) infected ill.
Proof.
  intros H. apply simulate_outcomes_inv in H as (doses & w0 & H).
  now apply infect_and_sicken_spec in H.
Qed.

(** C3.  In every result of [run_shellfish_qmra_advanced] the two count
    arrays have one entry per scenario; in each scenario the illness count
    is between [0] and the infection count, hence [0] when that is [0];
    and the counts are the row sums of the outcome arrays of the run, in
    which an individual is ill only if infected. *)
Theorem illness_within_infection :
  forall (lnGamma : R -> R) (norm_ppf : R -> npfloat)
         (fuel : nat) (a : qmra_args) (w w' : rng) (r : qmra_result),
    run_shellfish_qmra_advanced lnGamma norm_ppf fuel a w = (Ok r, w') ->
    List.length (infections_distribution r) = iterations a /\
    List.length (illness_distribution r) = iterations a /\
    Forall2 (fun inf il => (0 <= il <= inf)%Z /\ (inf = 0%Z -> il = 0%Z))
            (infections_distribution r) (illness_distribution r) /\
    exists (infected ill : list (list Z)) (w1 : rng),
      simulate_outcomes lnGamma norm_ppf fuel a w = (Ok (infected, ill), w1) /\
      infections_distribution r = map sumZ infected /\
      illness_distribution r = map sumZ ill /\
      Forall2 (Forall2 ill_only_if_infected) infected ill.
Proof.
  intros f g fuel a w w' r H. unfold run_shellfish_qmra_advanced in H.
  apply bind_ok_inv in H as ([infected ill] & w1 & Esim & H).
  cbn [fst snd] in H. unfold aggregate_results in H.
  apply bind_ok_inv in H as (? & w6 & _ & H).
  apply bind_ok_inv in H as (inf_min & w7 & _ & H).
  apply bind_ok_inv in H as (inf_max & w8 & _ & H).
  apply bind_ok_inv in H as (? & w9 & _ & H).
  apply bind_ok_inv in H as (ill_min & w10 & _ & H).
  apply bind_ok_inv in H as (ill_max & w11 & _ & H).
  unfold ret in H. inversion H; subst r w'. clear H.
  cbn [infections_distribution illness_distribution].
  destruct (simulate_outcomes_spec f g fuel a w infected ill w1 Esim)
    as (Hl1 & Hl2 & Hgrid).
  rewrite !length_map. split; [assumption|]. split; [assumption|]. split.
  - now apply Forall2_sums.
  - now exists infected, ill, w1.
Qed.

(** ** When the run returns a result

    The effluent bounds are not checked: they may be of either sign and in
    any order.  What the run needs is that no step leaves the range of the
    machine numbers; this is obtained from bounds on the magnitudes of the
    inputs. *)

Lemma mul_bound a b K L :
  - K <= a <= K -> - L <= b <= L -> - (K * L) <= a * b <= K * L.
Proof. intros Ha Hb. nra. Qed.

Lemma div_bound a b K dmin :
  - K <= a <= K -> 0 < dmin -> dmin <= b \/ b <= - dmin ->
  - (K / dmin) <= a / b <= K / dmin.
Proof.
  assert (pos : forall a b, - K <= a <= K -> 0 < dmin -> dmin <= b ->
                            - (K / dmin) <= a / b <= K / dmin).
  { intros a0 b0 Ha Hd Hb.
    assert (Hb0 : 0 < b0) by lra.
    assert (Hi : 0 < / b0) by now apply Rinv_0_lt_compat.
    assert (Hle : / b0 <= / dmin) by (apply Rinv_le_contravar; lra).
    unfold Rdiv. nra. }
  intros Ha Hd [Hb | Hb]; [now apply pos|].
  replace (a / b) with ((- a) / (- b)) by (field; lra).
  apply pos; lra.
Qed.

Lemma hockey_lower_bounded x0 x50 u w B :
  x0 <> x50 -> 0 <= u <= 0.5 -> - B <= x0 <= B -> - B <= x50 <= B ->
  exists x, hockey_lower (Fin x0) (Fin x50) (Fin (/ (x50 - x0))) (Fin u) w
            = (Ok (Fin x), w) /\ - (3 * B) <= x <= 3 * B.
Proof.
  intros H Hu H0 H50. unfold hockey_lower, bind. cbn [fmul fsub fadd fneg].
  assert (Hinv : / (x50 - x0) <> 0) by (apply Rinv_neq_0_compat; lra).
  rewrite py_truediv_fin by assumption.
  replace (u * 2 * (x50 + - x0) / / (x50 - x0))
    with (u * 2 * (x50 - x0)²) by (unfold Rsqr; field; lra).
  pose proof (Rle_0_sqr (x50 - x0)) as Hsq.
  unfold ret, fsqrt.
  rewrite Rltb_false by (apply Rmult_le_pos; lra).
  cbn [fadd]. eexists. split; [reflexivity|].
  assert (Hs : 0 <= sqrt (u * 2 * (x50 - x0)²) <= 2 * B).
  { split; [apply sqrt_pos|].
    apply Rle_trans with (sqrt (x50 - x0)²).
    - apply sqrt_le_1_alt. nra.
    - rewrite sqrt_Rsqr_abs. apply Rabs_le. lra. }
  lra.
Qed.

Lemma hockey_transform_bounded x0 x50 x100 u w B :
  x0 <> x50 -> 0 <= u < 1 ->
  - B <= x0 <= B -> - B <= x50 <= B -> - B <= x100 <= B ->
  exists x,
    hockey_transform (Fin x0) (Fin x50) (Fin x100) (Fin 0.95)
                     (Fin (/ (x50 - x0)))
                     (hockey_xp (Fin x50) (Fin x100) (Fin 0.95)) (Fin u) w
    = (Ok (Fin x), w) /\ - (3 * B) <= x <= 3 * B.
Proof.
  intros H Hu H0 H50 H100. unfold hockey_transform, fle.
  destruct (Rle_dec u 0.5) as [A|A].
  { rewrite Rleb_true by assumption. apply hockey_lower_bounded; lra. }
  rewrite Rleb_false by lra.
  unfold hockey_xp. cbn [fmul fsub fadd fneg].
  destruct (Rle_dec u 0.95) as [A'|A'].
  - rewrite Rleb_true by assumption. rewrite hockey_middle_fin by lra.
    eexists. split; [reflexivity|].
    replace (x50 + (u - 0.5) * (x50 + (x100 + - x50) * 0.95 - x50) / (0.95 - 0.5))
      with (x50 + (u - 0.5) * (19 / 9) * (x100 - x50)) by (dec_field; lra).
    nra.
  - rewrite Rleb_false by lra. rewrite hockey_upper_fin by lra.
    eexists. split; [reflexivity|].
    replace (x50 + (x100 + - x50) * 0.95
             + (u - 0.95) * (x100 - (x50 + (x100 + - x50) * 0.95)) / (1 - 0.95))
      with (x50 + (0.95 + (u - 0.95)) * (x100 - x50)) by (dec_field; lra).
    nra.
Qed.

(** With finite [x0 <> x50], in either order and of either sign, the
    hockey-stick sampler returns [n_samples] finite values after
    [n_samples] draws, none of them beyond three times the largest
    magnitude of its bounds. *)
Lemma sample_hockey_stick_concentration_bounded n x0 x50 x100 w B :
  x0 <> x50 ->
  - B <= x0 <= B -> - B <= x50 <= B -> - B <= x100 <= B ->
  exists samples,
    sample_hockey_stick_concentration n (Fin x0) (Fin x50) (Fin x100) (Fin 0.95) w
    = (Ok samples, advance_by n w) /\
    List.length samples = n /\
    Forall (mag_le (3 * B)) samples.
Proof.
  intros H H0 H50 H100. unfold sample_hockey_stick_concentration, bind at 1.
  rewrite hockey_h1_fin by assumption.
  apply replicateM_one_draw. intros w0. unfold bind.
  rewrite np_random_random_eq.
  destruct (hockey_transform_bounded x0 x50 x100
              (unit_fraction (stream w0 (pos w0))) (advance w0) B H
              (unit_fraction_range _) H0 H50 H100) as [x [Ex Hx]].
  exists (Fin x). rewrite Ex. split; [reflexivity|]. now exists x.
Qed.


Lemma fdiv_fin a b : b <> 0 -> fdiv (Fin a) (Fin b) = Fin (a / b).
Proof. intros H. unfold fdiv. now rewrite Reqb_false. Qed.

(** The removal factor [10 ** x] of a log removal between [0] and [308]:
    no overflow, and a factor of at least [1]. *)
Lemma py_pow10_fin lr w :
  0 <= lr <= 308 ->
  py_pow10 (Fin lr) w = (Ok (Fin (Rpower 10 lr)), w) /\ 1 <= Rpower 10 lr.
Proof.
  intros [Hlo Hhi].
  assert (H1 : 1 <= Rpower 10 lr).
  { rewrite <- (Rpower_O 10) by lra. apply Rle_Rpower; lra. }
  assert (H2 : Rpower 10 lr < 2 ^ 1024 - 2 ^ 970).
  { apply Rle_lt_trans with (Rpower 10 308); [apply Rle_Rpower; lra|].
    replace 308 with (INR 308) by (rewrite INR_IZR_INZ; reflexivity).
    rewrite Rpower_pow by lra. lra. }
  split; [|exact H1]. unfold py_pow10.
  rewrite Rleb_false by assumption.
  rewrite Rleb_false; [reflexivity|].
  assert (H3 : / 2 ^ 1075 < 1).
  { rewrite <- Rinv_1. apply Rinv_lt_contravar; lra. }
  lra.
Qed.

Lemma treated_bounded K s l :
  1 <= s -> 0 <= K ->
  Forall (mag_le K) l -> Forall (mag_le K) (map (fun c => fdiv c (Fin s)) l).
Proof.
  intros Hs HK. induction 1 as [|x t [r [-> Hr]] Ht IH]; cbn [map]; constructor;
    [|exact IH].
  rewrite fdiv_fin by lra. eexists. split; [reflexivity|].
  pose proof (div_bound r s K 1 Hr ltac:(lra) ltac:(lra)). lra.
Qed.

Lemma map2_fdiv_bounded K dmin l l' :
  0 < dmin ->
  Forall (mag_le K) l -> Forall (finite_at_least dmin) l' ->
  Forall (mag_le (K / dmin)) (map2 fdiv l l').
Proof.
  intros Hd H. revert l'. induction H as [|x t [r [-> Hr]] Ht IH]; intros l' Hl';
    [constructor|].
  destruct Hl' as [|y t' [q [-> Hq]] Ht']; [constructor|].
  cbn [map2]. constructor; [|now apply IH].
  rewrite fdiv_fin by lra. eexists. split; [reflexivity|].
  now apply div_bound.
Qed.

(** Doses from bounded concentrations, meal sizes and bioaccumulation
    factors. *)
Lemma continuous_doses_bounded C Mx Bb site_conc :
  Forall (mag_le C) site_conc ->
  forall meals bafs,
    Forall (Forall (mag_le Mx)) meals ->
    Forall (Forall (mag_le Bb)) bafs ->
    Forall (mag_le (C * (Mx / 1000) * Bb))
           (List.concat (continuous_doses site_conc meals bafs)).
Proof.
  unfold continuous_doses.
  induction 1 as [|c t [r [-> Hc]] Ht IH]; intros meals bafs Hm Hb; [constructor|].
  destruct Hm as [|ms meals Hms Hm]; [constructor|].
  destruct Hb as [|bs bafs Hbs Hb]; [constructor|].
  cbn [map combine map2 List.concat fst snd].
  apply Forall_app. split; [|now apply IH].
  clear - Hc Hms Hbs.
  revert bs Hbs. induction Hms as [|m ms [rm [-> Hm]] Hms IHm]; intros bs Hbs;
    [constructor|].
  destruct Hbs as [|b bs [rb [-> Hb]] Hbs]; [constructor|].
  cbn [map map2]. constructor; [|now apply IHm].
  rewrite fdiv_fin by lra. cbn [fmul]. eexists. split; [reflexivity|].
  apply mul_bound; [|assumption]. apply mul_bound; [assumption|].
  unfold Rdiv. lra.
Qed.

Lemma Forall_skipn_keep {A : Type} (P : A -> Prop) (l : list A) :
  Forall P l -> forall n, Forall P (skipn n l).
Proof.
  intros H. induction H as [|x l Hx Hl IH]; intros [|n]; simpl; auto.
Qed.

Lemma Forall_reshape_rows {A : Type} (P : A -> Prop) rows cols (flat : list A) :
  Forall P flat -> Forall (Forall P) (reshape rows cols flat).
Proof.
  revert flat. induction rows as [|rows IH]; intros flat H; cbn [reshape];
    constructor.
  - now apply Forall_firstn_keep.
  - apply IH. now apply Forall_skipn_keep.
Qed.

Lemma Forall_np_full {A : Type} (P : A -> Prop) rows cols (v : A) :
  P v -> Forall (Forall P) (np_full rows cols v).
Proof.
  intros H. unfold np_full.
  assert (Hrow : Forall P (repeat v cols)) by (induction cols; simpl; auto).
  induction rows; simpl; auto.
Qed.

(** Step 5 under [meal_sizes_within]. *)
Lemma sample_meals_and_bafs_bounded g fuel a w Mx b Bb :
  mhf_fixed a = Fin b -> - Bb <= b <= Bb ->
  meal_sizes_within fuel a w Mx ->
  exists meals bafs w',
    sample_meals_and_bafs g fuel a w = (Ok (meals, bafs), w') /\
    Forall (Forall (mag_le Mx)) meals /\ Forall (Forall (mag_le Bb)) bafs.
Proof.
  intros Eb Hb Hm. unfold meal_sizes_within in Hm. unfold sample_meals_and_bafs.
  assert (Hbaf : Forall (Forall (mag_le Bb))
                        (np_full (iterations a) (num_people a) (mhf_fixed a))).
  { apply Forall_np_full. rewrite Eb. now exists b. }
  destruct (String.eqb (mode a) "advanced").
  - destruct Hm as (Hv & Hfuel & HMx). rewrite Hv. unfold bind.
    destruct (sample_meal_size_loglogistic_enough _ fuel w Hfuel)
      as (meals & w' & Emeals & _ & Hmeals).
    rewrite Emeals. unfold ret. eexists _, _, _. split; [reflexivity|].
    split; [|exact Hbaf].
    apply Forall_reshape_rows. eapply Forall_impl; [|exact Hmeals].
    intros s0 (r & -> & Hr). exists r. split; [reflexivity|].
    unfold MEAL_SIZE_MIN, MEAL_SIZE_MAX in *. lra.
  - destruct Hm as (m & Em & Hm). unfold ret. eexists _, _, _.
    split; [reflexivity|]. split; [|exact Hbaf].
    apply Forall_np_full. rewrite Em. now exists m.
Qed.

Lemma gamma_pole_frac c z : 0 < c < 1 -> gamma_pole (c + IZR z) = false.
Proof.
  intros Hc. unfold gamma_pole.
  rewrite <- (Int_part_spec (c + IZR z) z) by lra.
  rewrite Reqb_false by lra. apply andb_false_r.
Qed.

Lemma in_unit_interval_valid p : in_unit_interval p -> valid_prob p = true.
Proof.
  intros [r [-> Hr]]. unfold valid_prob, fle. now rewrite !Rleb_true by lra.
Qed.

(** At a whole dose of either sign that [int64] holds, the fixed
    parameters keep the four [gammaln] arguments off the poles and below
    the overflow: the probability is valid. *)
Lemma infection_prob1_whole_dose_valid f z :
  - 2 ^ 63 <= IZR z <= 2 ^ 63 ->
  valid_prob (infection_prob1 f (Fin ALPHA) (Fin BETA) (Fin (IZR z))) = true.
Proof.
  intros Hz.
  apply in_unit_interval_valid. unfold infection_prob1. apply clamp01_range.
  unfold prob_unclamped, log_prob_complement. cbn [fadd].
  pose proof MAXLGM_large as HM.
  rewrite (gammaln_fin f (BETA + IZR z))
    by (try (apply gamma_pole_frac; unfold BETA; lra);
        apply Rabs_le; unfold BETA; lra).
  replace (ALPHA + BETA + IZR z) with ((ALPHA + BETA) + IZR z) by lra.
  rewrite (gammaln_fin f (ALPHA + BETA + IZR z))
    by (try (apply gamma_pole_frac; unfold ALPHA, BETA; lra);
        apply Rabs_le; unfold ALPHA, BETA; lra).
  rewrite !gammaln_pos by (unfold ALPHA, BETA; lra).
  discriminate.
Qed.

Lemma infection_probs_valid f rows cols (doses : list Z) :
  Forall (fun z => - 2 ^ 63 <= IZR z <= 2 ^ 63) doses ->
  forallb valid_prob
    (List.concat
       (reshape rows cols
          (beta_binomial_infection_prob f (map (fun d => Fin (IZR d)) doses)
                                        (Fin ALPHA) (Fin BETA)))) = true.
Proof.
  intros Hd. apply forallb_forall. intros p Hp. rewrite concat_reshape in Hp.
  pose proof (In_firstn_keep _ _ _ Hp) as Hin.
  unfold beta_binomial_infection_prob in Hin. rewrite map_map in Hin.
  apply in_map_iff in Hin as [z [<- Hz]].
  apply infection_prob1_whole_dose_valid.
  rewrite Forall_forall in Hd. now apply Hd.
Qed.

(** The integers that the discretizer returns are within [2^63]. *)
Lemma discretize_dose_range dose w out w' :
  discretize_dose dose w = (Ok out, w') ->
  Forall (fun z => - 2 ^ 63 <= IZR z <= 2 ^ 63) out.
Proof.
  intros H.
  destruct (forallb valid_prob (map fractional_part dose)) eqn:E.
  - assert (Hd : Forall int64_dose dose).
    { apply Forall_forall. intros d Hin. apply fractional_part_valid_inv.
      rewrite forallb_forall in E. apply E. now apply in_map. }
    destruct (discretize_dose_int64 dose w Hd) as [out0 [E0 H0]].
    rewrite E0 in H. injection H as <- <-.
    clear E0 E. induction H0 as [|d x t t' [r [-> Hx]] Ht IH]; [constructor|].
    inversion Hd as [|? ? [r' [Er Hr]] Hd0]; subst. injection Er as <-.
    constructor; [|now apply IH].
    destruct (Int_part_int64 r Hr) as [A B]. apply IZR_le in A, B.
    unfold INT64_MIN, INT64_MAX in A, B.
    destruct Hx as [-> | [-> _]]; [lra|]. rewrite plus_IZR. lra.
  - rewrite discretize_dose_eq in H. unfold bind in H.
    rewrite np_random_binomial1_invalid in H by assumption. discriminate.
Qed.

(** Steps 7 to 10 on doses that [int64] can hold. *)
Lemma infect_and_sicken_returns f it np doses w :
  Forall int64_dose (List.concat doses) ->
  exists flat_infected ill_flat w',
    infect_and_sicken f it np doses w
    = (Ok (reshape it np flat_infected, reshape it np ill_flat), w').
Proof.
  intros Hd. unfold infect_and_sicken.
  destruct (discretize_dose_int64 _ w Hd) as [flat_doses [Edose _]].
  pose proof (discretize_dose_range _ _ _ _ Edose) as Hrange.
  unfold bind at 1. rewrite Edose.
  unfold bind at 1.
  match goal with
  | |- context [np_random_binomial1 ?p ?w3] =>
      destruct (np_random_binomial1_valid p w3) as (flat_inf & Einf & _ & Hbits)
  end.
  { apply infection_probs_valid. rewrite concat_reshape.
    now apply Forall_firstn_keep. }
  rewrite Einf.
  unfold bind at 1.
  match goal with
  | |- context [determine_illness ?it ?np ?inf ?w4] =>
      destruct (determine_illness_spec it np inf w4) as (ill_flat & Eill & _)
  end.
  { rewrite concat_reshape. now apply Forall_firstn_keep. }
  rewrite Eill. unfold ret. now eexists flat_inf, ill_flat, _.
Qed.

Lemma aggregate_results_ok a l l' w :
  l <> [] -> l' <> [] ->
  exists r,
    aggregate_results a l l' w = (Ok r, w) /\
    infections_distribution r = l /\ illness_distribution r = l'.
Proof.
  intros Hl Hl'. destruct l as [|x t]; [contradiction|].
  destruct l' as [|x' t']; [contradiction|].
  eexists. unfold aggregate_results, bind, np_percentile_defined, np_min, np_max, ret.
  split; [reflexivity|]. split; reflexivity.
Qed.

(** With the hockey-stick sampler the outcome arrays are produced when
    the scalar inputs are finite with [effluent_min <> effluent_median],
    the log removal is between [0] and [308], the cleaned dilution values
    are finite and of magnitude at least [dmin > 0], the meal sizes are
    available, and the bound on the doses that follows from the
    magnitudes is within the range of [int64]. *)
Lemma simulate_outcomes_returns f g fuel a w x0 x50 x100 lr b B dmin Mx Bb :
  use_hockey_stick a = true ->
  effluent_min a = Fin x0 -> effluent_median a = Fin x50 ->
  effluent_max a = Fin x100 -> x0 <> x50 ->
  - B <= x0 <= B -> - B <= x50 <= B -> - B <= x100 <= B ->
  log_removal_wwtp a = Fin lr -> 0 <= lr <= 308 ->
  mhf_fixed a = Fin b -> - Bb <= b <= Bb ->
  drop_nan (dilution_data a) <> [] ->
  Forall (finite_at_least dmin) (drop_nan (dilution_data a)) -> 0 < dmin ->
  meal_sizes_within fuel a
    (advance_by (iterations a) (advance_by (iterations a) w)) Mx ->
  3 * B * Mx * Bb <= 2 ^ 62 * (1000 * dmin) ->
  exists flat_infected ill_flat w',
    simulate_outcomes f g fuel a w
    = (Ok (reshape (iterations a) (num_people a) flat_infected,
           reshape (iterations a) (num_people a) ill_flat), w').
Proof.
  intros Hhs E0 E50 E100 Hne H0 H50 H100 Elr Hlr Eb Hb Hdata Hdil Hdmin Hmeals
         Hbound.
  assert (HB : 0 <= B) by lra.
  unfold simulate_outcomes.
  (* effluent *)
  unfold bind at 1. unfold sample_effluent. rewrite Hhs, E0, E50, E100.
  destruct (sample_hockey_stick_concentration_bounded
              (iterations a) x0 x50 x100 w B Hne H0 H50 H100)
    as (eff & Eeff & _ & Heff).
  rewrite Eeff.
  (* removal *)
  unfold bind at 1. rewrite Elr.
  destruct (py_pow10_fin lr (advance_by (iterations a) w) Hlr) as [Epow Hpow].
  rewrite Epow.
  (* dilution *)
  unfold bind at 1.
  destruct (sample_ecdf_nonempty (dilution_data a) (iterations a)
                                 (advance_by (iterations a) w) Hdata)
    as (dil & Edil & _ & Hin).
  rewrite Edil.
  assert (Hdil' : Forall (finite_at_least dmin) dil).
  { rewrite Forall_forall in *. intros x Hx. apply Hdil. now apply Hin. }
  (* meal sizes and bioaccumulation factors *)
  unfold bind at 1.
  destruct (sample_meals_and_bafs_bounded g fuel a _ Mx b Bb Eb Hb Hmeals)
    as (meals & bafs & w3 & Emb & Hm & Hbf).
  rewrite Emb. cbn [fst snd].
  (* doses *)
  apply infect_and_sicken_returns.
  assert (HMx : 0 <= Mx).
  { unfold meal_sizes_within in Hmeals.
    destruct (String.eqb (mode a) "advanced").
    - destruct Hmeals as (_ & _ & H). unfold MEAL_SIZE_MAX in H. lra.
    - destruct Hmeals as (m & _ & H). lra. }
  pose proof (continuous_doses_bounded
                (3 * B / dmin) Mx Bb _
                (map2_fdiv_bounded (3 * B) dmin _ _ Hdmin
                   (treated_bounded (3 * B) _ _ Hpow ltac:(lra) Heff) Hdil')
                meals bafs Hm Hbf) as Hdoses.
  eapply Forall_impl; [|exact Hdoses].
  intros d [r [-> Hr]]. exists r. split; [reflexivity|].
  assert (HK : 3 * B / dmin * (Mx / 1000) * Bb <= 2 ^ 62).
  { replace (3 * B / dmin * (Mx / 1000) * Bb)
      with (3 * B * Mx * Bb / (1000 * dmin)) by (field; lra).
    apply (Rmult_le_reg_r (1000 * dmin)); [lra|].
    unfold Rdiv. rewrite Rmult_assoc, Rinv_l by lra. lra. }
  lra.
Qed.

(** Under the same conditions and with at least one iteration, the run
    returns a result. *)
Lemma run_returns f g fuel a w x0 x50 x100 lr b B dmin Mx Bb :
  use_hockey_stick a = true ->
  effluent_min a = Fin x0 -> effluent_median a = Fin x50 ->
  effluent_max a = Fin x100 -> x0 <> x50 ->
  - B <= x0 <= B -> - B <= x50 <= B -> - B <= x100 <= B ->
  log_removal_wwtp a = Fin lr -> 0 <= lr <= 308 ->
  mhf_fixed a = Fin b -> - Bb <= b <= Bb ->
  drop_nan (dilution_data a) <> [] ->
  Forall (finite_at_least dmin) (drop_nan (dilution_data a)) -> 0 < dmin ->
  meal_sizes_within fuel a
    (advance_by (iterations a) (advance_by (iterations a) w)) Mx ->
  3 * B * Mx * Bb <= 2 ^ 62 * (1000 * dmin) ->
  iterations a <> 0%nat ->
  exists r w',
    run_shellfish_qmra_advanced f g fuel a w = (Ok r, w') /\
    List.length (infections_distribution r) = iterations a.
Proof.
  intros Hhs E0 E50 E100 Hne H0 H50 H100 Elr Hlr Eb Hb Hdata Hdil Hdmin Hmeals
         Hbound Hit.
  destruct (simulate_outcomes_returns
              f g fuel a w x0 x50 x100 lr b B dmin Mx Bb
              Hhs E0 E50 E100 Hne H0 H50 H100 Elr Hlr Eb Hb Hdata Hdil Hdmin
              Hmeals Hbound)
    as (flat_inf & ill_flat & w1 & Esim).
  unfold run_shellfish_qmra_advanced, bind. rewrite Esim. cbn [fst snd].
  match goal with
  | |- context [aggregate_results a ?l ?l' ?w5] =>
      destruct (aggregate_results_ok a l l' w5) as (r & Er & Hr & _)
  end.
  - destruct (iterations a); [contradiction | discriminate].
  - destruct (iterations a); [contradiction | discriminate].
  - exists r, w1. split; [exact Er|].
    now rewrite Hr, length_map, length_reshape.
Qed.

Lemma scenario_site_returns w :
  exists r w',
    run_shellfish_qmra_advanced lnGamma_rec no_norm_ppf 0 scenario_site w = (Ok r, w').
Proof.
  destruct (run_returns lnGamma_rec no_norm_ppf 0 scenario_site w
              1 1000 100000 2.0 MHF_MEAN 100000 95 50 MHF_MEAN)
    as (r & w' & E & _);
    try reflexivity; try discriminate; try (unfold MHF_MEAN; lra).
  - repeat constructor; eexists; (split; [reflexivity | lra]).
  - exists 50. split; [reflexivity | lra].
  - now exists r, w'.
Qed.

Lemma illness_within_infection_witness :
  exists r w',
    run_shellfish_qmra_advanced lnGamma_rec no_norm_ppf 0 scenario_site
                                (rng_of_list []) = (Ok r, w') /\
    List.length (infections_distribution r) = 1000%nat /\
    Forall2 (fun inf il => (0 <= il <= inf)%Z /\ (inf = 0%Z -> il = 0%Z))
            (infections_distribution r) (illness_distribution r).
Proof.
  destruct (scenario_site_returns (rng_of_list [])) as [r [w' E]].
  exists r, w'. split; [exact E|].
  destruct (illness_within_infection lnGamma_rec no_norm_ppf 0 scenario_site
                                     (rng_of_list []) w' r E) as (H1 & _ & H2 & _).
  split; assumption.
Defined.

(** ** Input validation *)








(** ** The reference [ln Gamma] and a run on the unit site *)

Lemma ln_rising_last y k : ln_rising y (S k) = ln_rising y k + ln (y + INR k).
Proof.
  revert y. induction k as [|k IH]; intros y.
  - simpl. rewrite !Rplus_0_r. lra.
  - change (ln_rising y (S (S k))) with (ln y + ln_rising (y + 1) (S k)).
    rewrite IH. change (ln_rising y (S k)) with (ln y + ln_rising (y + 1) k).
    rewrite S_INR. replace (y + 1 + INR k) with (y + (INR k + 1)) by lra. lra.
Qed.

Lemma lnGamma_rec_recurrence : gamma_recurrence lnGamma_rec.
Proof.
  intros x Hx. unfold lnGamma_rec.
  pose proof (Int_part_bounds x) as Hb.
  pose proof (Int_part_nonneg x (Rlt_le _ _ Hx)) as Hn.
  assert (E : Int_part (x + 1) = (Int_part x + 1)%Z).
  { symmetry. apply Int_part_spec. rewrite plus_IZR. lra. }
  rewrite E, Z2Nat.inj_add by lia. change (Z.to_nat 1) with 1%nat.
  rewrite Nat.add_1_r, ln_rising_last.
  assert (EI : INR (Z.to_nat (Int_part x)) = IZR (Int_part x)).
  { rewrite INR_IZR_INZ, Z2Nat.id by assumption. reflexivity. }
  rewrite S_INR, EI.
  replace (x + 1 - (IZR (Int_part x) + 1)) with (x - IZR (Int_part x)) by lra.
  replace (x - IZR (Int_part x) + IZR (Int_part x)) with x by lra.
  reflexivity.
Qed.

(** With the recurrence of [ln Gamma], the infection probability at one
    organism is [alpha / (alpha + beta)]. *)
Lemma infection_prob1_one_organism f :
  gamma_recurrence f ->
  infection_prob1 f (Fin ALPHA) (Fin BETA) (Fin 1) = Fin (ALPHA / (ALPHA + BETA)).
Proof.
  intros Hf. assert (Hb : 0 < BETA) by (unfold BETA; lra).
  assert (Hab : 0 < ALPHA + BETA) by (unfold ALPHA, BETA; lra).
  rewrite infection_prob1_finite by (unfold ALPHA, BETA, MAXLGM; lra).
  rewrite (Hf BETA Hb), (Hf (ALPHA + BETA) Hab).
  replace (f BETA + ln BETA + f (ALPHA + BETA) - (f (ALPHA + BETA) + ln (ALPHA + BETA))
           - f BETA) with (ln BETA - ln (ALPHA + BETA)) by lra.
  unfold Rminus at 2. rewrite exp_plus, exp_Ropp, !exp_ln by assumption.
  assert (E : 1 - BETA * / (ALPHA + BETA) = ALPHA / (ALPHA + BETA))
    by (field; lra).
  rewrite E.
  assert (H01 : 0 < ALPHA / (ALPHA + BETA) < 1).
  { unfold ALPHA, BETA. lra. }
  rewrite Rmax_left by lra. rewrite Rmin_left by lra. reflexivity.
Qed.

Lemma unit_site_effluent w :
  unit_fraction (stream w (pos w)) = 0.5 ->
  sample_effluent unit_site w = (Ok [Fin 1], advance w).
Proof.
  intros Hu. unfold sample_effluent.
  cbn [unit_site use_hockey_stick iterations effluent_min effluent_median effluent_max].
  unfold sample_hockey_stick_concentration. unfold bind at 1.
  rewrite hockey_h1_fin by lra. cbn [replicateM]. unfold bind.
  rewrite np_random_random_eq, Hu. unfold hockey_transform, fle.
  rewrite Rleb_true by lra. rewrite hockey_lower_at_half by lra. reflexivity.
Qed.

Lemma unit_site_dilution w :
  sample_ecdf (dilution_data unit_site) (iterations unit_site) w
  = (Ok [Fin 1], advance w).
Proof.
  unfold sample_ecdf, drop_nan, np_random_choice.
  cbn [unit_site dilution_data iterations filter isnan negb List.length Nat.eqb replicateM].
  unfold bind. rewrite next_raw_eq. cbv beta iota.
  rewrite Nat.mod_1_r. reflexivity.
Qed.

Lemma unit_site_doses :
  List.concat
    (continuous_doses
       (map2 fdiv (map (fun c => fdiv c (Fin (Rpower 10 0))) [Fin 1]) [Fin 1])
       (np_full (iterations unit_site) (num_people unit_site)
                (meal_size_fixed unit_site))
       (np_full (iterations unit_site) (num_people unit_site) (mhf_fixed unit_site)))
  = [Fin 1].
Proof.
  unfold continuous_doses, np_full.
  cbn [unit_site log_removal_wwtp iterations num_people meal_size_fixed mhf_fixed
       map map2 repeat combine List.concat fst snd app].
  rewrite Rpower_O by lra.
  rewrite !fdiv_fin by lra. cbn [fmul]. do 2 f_equal. lra.
Qed.

Lemma Int_part_one : Int_part 1 = 1%Z.
Proof. symmetry. apply Int_part_spec. lra. Qed.

Lemma unit_site_discretize w :
  discretize_dose [Fin 1] w = (Ok [1%Z], advance w).
Proof.
  rewrite discretize_dose_eq. unfold np_random_binomial1.
  cbn [map forallb]. rewrite fractional_part_fin, integer_part_int64 by lra.
  rewrite Int_part_one.
  unfold valid_prob, fle. rewrite !Rleb_true by lra.
  cbn [andb mapM]. unfold bind. rewrite bernoulli_eq. unfold flt.
  rewrite Rltb_false by (pose proof (unit_fraction_range (stream w (pos w))); lra).
  reflexivity.
Qed.

Lemma valid_prob_one_organism :
  valid_prob (Fin (ALPHA / (ALPHA + BETA))) = true.
Proof.
  unfold valid_prob, fle, ALPHA, BETA. now rewrite !Rleb_true by lra.
Qed.

Lemma unit_site_infection w :
  np_random_binomial1 [Fin (ALPHA / (ALPHA + BETA))] w
  = (Ok [if Rltb (unit_fraction (stream w (pos w))) (ALPHA / (ALPHA + BETA))
         then 1%Z else 0%Z],
     advance w).
Proof.
  unfold np_random_binomial1. cbn [forallb]. rewrite valid_prob_one_organism.
  cbn [andb mapM]. unfold bind. rewrite bernoulli_eq. reflexivity.
Qed.

Lemma unit_site_illness_infected w :
  determine_illness 1 1 [[1%Z]] w
  = (Ok [[if Rltb (unit_fraction (stream w (pos w))) PR_ILLNESS_GIVEN_INFECTION
          then 1%Z else 0%Z]],
     advance w).
Proof.
  unfold determine_illness, np_random_binomial1_size.
  rewrite valid_prob_illness.
  change (Z.to_nat (sumZ (List.concat [[1%Z]]))) with 1%nat.
  cbn [replicateM]. unfold bind. rewrite bernoulli_eq. reflexivity.
Qed.

Lemma unit_site_illness_not_infected w :
  determine_illness 1 1 [[0%Z]] w = (Ok [[0%Z]], w).
Proof.
  unfold determine_illness, np_random_binomial1_size.
  rewrite valid_prob_illness. reflexivity.
Qed.

(** The outcome arrays on the unit site, when the effluent variate is the
    median: three draws lead to a dose of one organism; the fourth decides
    the infection, against [alpha / (alpha + beta)]; a fifth is made only
    for an infected consumer. *)
Lemma unit_site_outcomes f g fuel w :
  gamma_recurrence f ->
  unit_fraction (stream w (pos w)) = 0.5 ->
  exists ill,
    simulate_outcomes f g fuel unit_site w
    = (if Rltb (unit_fraction (stream w (S (S (S (pos w))))))
               (ALPHA / (ALPHA + BETA))
       then (Ok ([[1%Z]], [[ill]]), advance_by 5 w)
       else (Ok ([[0%Z]], [[0%Z]]), advance_by 4 w)).
Proof.
  intros Hf Hu. unfold simulate_outcomes.
  unfold bind at 1. rewrite unit_site_effluent by assumption.
  unfold bind at 1.
  change (log_removal_wwtp unit_site) with (Fin 0).
  rewrite (proj1 (py_pow10_fin 0 (advance w) ltac:(lra))).
  unfold bind at 1. rewrite unit_site_dilution.
  unfold bind at 1. unfold sample_meals_and_bafs.
  change (String.eqb (mode unit_site) "advanced") with false. cbv iota.
  unfold ret at 1. cbn [fst snd].
  unfold infect_and_sicken. rewrite unit_site_doses.
  unfold bind at 1. rewrite unit_site_discretize.
  cbn [unit_site iterations num_people reshape firstn skipn List.concat app map].
  unfold beta_binomial_infection_prob. cbn [map List.concat app].
  rewrite infection_prob1_one_organism by assumption.
  unfold bind at 1. rewrite unit_site_infection.
  cbn [advance stream pos reshape firstn skipn].
  destruct (Rltb (unit_fraction (stream w (S (S (S (pos w))))))
                 (ALPHA / (ALPHA + BETA))).
  - unfold bind at 1. rewrite unit_site_illness_infected.
    eexists. reflexivity.
  - unfold bind at 1. rewrite unit_site_illness_not_infected.
    exists 0%Z. reflexivity.
Qed.

Lemma unit_site_run f g fuel w :
  gamma_recurrence f ->
  unit_fraction (stream w (pos w)) = 0.5 ->
  exists r,
    run_shellfish_qmra_advanced f g fuel unit_site w
    = (Ok r,
       if Rltb (unit_fraction (stream w (S (S (S (pos w))))))
               (ALPHA / (ALPHA + BETA))
       then advance_by 5 w else advance_by 4 w) /\
    infections_distribution r
    = [if Rltb (unit_fraction (stream w (S (S (S (pos w))))))
               (ALPHA / (ALPHA + BETA))
       then 1%Z else 0%Z].
Proof.
  intros Hf Hu. destruct (unit_site_outcomes f g fuel w Hf Hu) as [ill E].
  unfold run_shellfish_qmra_advanced, bind. rewrite E.
  destruct (Rltb (unit_fraction (stream w (S (S (S (pos w))))))
                 (ALPHA / (ALPHA + BETA)));
    eexists; split; reflexivity.
Qed.

(** ** The global generator is read and advanced *)

Lemma forward_ret {A : Type} (a : A) : forward (ret a).
Proof. intros w o w' H. inversion H; subst. split; [reflexivity | lia]. Qed.

Lemma forward_raise {A : Type} (e : exn) : forward (@raise A e).
Proof. intros w o w' H. inversion H; subst. split; [reflexivity | lia]. Qed.

Lemma forward_out_of_fuel {A : Type} : forward (@out_of_fuel A).
Proof. intros w o w' H. inversion H; subst. split; [reflexivity | lia]. Qed.

Lemma forward_next_raw : forward next_raw.
Proof. intros w o w' H. inversion H; subst. simpl. split; [reflexivity | lia]. Qed.

Lemma forward_bind {A B : Type} (c : M A) (k : A -> M B) :
  forward c -> (forall a, forward (k a)) -> forward (bind c k).
Proof.
  intros Hc Hk w o w'. unfold bind.
  destruct (c w) as [[a|e|] w1] eqn:E; intros H.
  - destruct (Hc _ _ _ E) as [Hs Hp]. destruct (Hk a _ _ _ H) as [Hs' Hp'].
    split; [congruence | lia].
  - inversion H; subst. exact (Hc _ _ _ E).
  - inversion H; subst. exact (Hc _ _ _ E).
Qed.

Lemma forward_replicateM {A : Type} (c : M A) n :
  forward c -> forward (replicateM n c).
Proof.
  intros Hc. induction n as [|n IH]; simpl.
  - apply forward_ret.
  - apply forward_bind; [assumption|]. intros x.
    apply forward_bind; [assumption|]. intros xs. apply forward_ret.
Qed.

Lemma forward_mapM {A B : Type} (f : A -> M B) l :
  (forall a, forward (f a)) -> forward (mapM f l).
Proof.
  intros Hf. induction l as [|a l IH]; simpl.
  - apply forward_ret.
  - apply forward_bind; [apply Hf|]. intros x.
    apply forward_bind; [assumption|]. intros xs. apply forward_ret.
Qed.

Lemma forward_if {A : Type} (b : bool) (c c' : M A) :
  forward c -> forward c' -> forward (if b then c else c').
Proof. now destruct b. Qed.

(** Proves [forward] for a computation built from the primitives. *)
Ltac forward_steps :=
  repeat first
    [ apply forward_ret | apply forward_raise | apply forward_out_of_fuel
    | apply forward_next_raw
    | apply forward_if
    | apply forward_replicateM | apply forward_mapM; intros ?
    | apply forward_bind; [|intros ?]
    | assumption ].

Lemma forward_np_random_random : forward np_random_random.
Proof. unfold np_random_random. forward_steps. Qed.

Lemma forward_bernoulli p : forward (bernoulli p).
Proof. unfold bernoulli. apply forward_bind; [apply forward_np_random_random|]. intros u. apply forward_ret. Qed.

Lemma forward_np_random_binomial1 p : forward (np_random_binomial1 p).
Proof.
  unfold np_random_binomial1. apply forward_if; [|apply forward_raise].
  apply forward_mapM. apply forward_bernoulli.
Qed.

Lemma forward_np_random_binomial1_size p n : forward (np_random_binomial1_size p n).
Proof.
  unfold np_random_binomial1_size. apply forward_if; [|apply forward_raise].
  apply forward_replicateM. apply forward_bernoulli.
Qed.

Lemma forward_sample_ecdf data n : forward (sample_ecdf data n).
Proof.
  unfold sample_ecdf, np_random_choice. apply forward_if; [apply forward_raise|].
  destruct (drop_nan data); forward_steps.
Qed.

Lemma forward_meal_size_loop fuel n :
  forall samples, forward (meal_size_loop fuel n samples).
Proof.
  induction fuel as [|fuel IH]; intros samples; cbn [meal_size_loop];
    (apply forward_if; [|apply forward_ret]).
  - apply forward_out_of_fuel.
  - apply forward_bind.
    + unfold fisk_rvs. apply forward_bind; [apply forward_np_random_random|].
      intros u. apply forward_ret.
    + intros s. apply forward_if; apply IH.
Qed.

Lemma forward_sample_meals_and_bafs g fuel a : forward (sample_meals_and_bafs g fuel a).
Proof.
  unfold sample_meals_and_bafs. apply forward_if; [|apply forward_ret].
  apply forward_bind.
  - unfold sample_meal_size_loglogistic. apply forward_bind;
      [apply forward_meal_size_loop | intros s; apply forward_ret].
  - intros meals. apply forward_if; [|apply forward_ret].
    apply forward_bind; [|intros b; apply forward_ret].
    unfold sample_baf, np_random_normal.
    apply forward_bind; [|intros s; apply forward_ret].
    apply forward_if; [apply forward_raise|]. apply forward_replicateM.
    apply forward_bind; [apply forward_np_random_random | intros u; apply forward_ret].
Qed.

Lemma forward_discretize_dose dose : forward (discretize_dose dose).
Proof.
  rewrite discretize_dose_eq. apply forward_bind;
    [apply forward_np_random_binomial1 | intros b; apply forward_ret].
Qed.

Lemma forward_determine_illness it np infected :
  forward (determine_illness it np infected).
Proof.
  unfold determine_illness. apply forward_bind;
    [apply forward_np_random_binomial1_size|].
  intros draws. destruct (mask_assign _ draws); [apply forward_ret | apply forward_raise].
Qed.

Lemma forward_aggregate_results a l l' : forward (aggregate_results a l l').
Proof.
  unfold aggregate_results, np_percentile_defined, np_min, np_max.
  destruct l, l'; forward_steps.
Qed.

Lemma forward_py_truediv a b : forward (py_truediv a b).
Proof. unfold py_truediv. forward_steps. Qed.

Lemma forward_py_pow10 x : forward (py_pow10 x).
Proof. unfold py_pow10. destruct x; forward_steps. Qed.

Lemma forward_hockey_transform x0 x50 x100 pb h1 xp u :
  forward (hockey_transform x0 x50 x100 pb h1 xp u).
Proof.
  unfold hockey_transform, hockey_lower, hockey_middle, hockey_upper.
  repeat apply forward_if;
    (apply forward_bind; [apply forward_py_truediv | intros r; apply forward_ret]).
Qed.

Lemma forward_sample_effluent a : forward (sample_effluent a).
Proof.
  unfold sample_effluent. apply forward_if.
  - unfold sample_hockey_stick_concentration.
    apply forward_bind; [apply forward_py_truediv | intros h1].
    apply forward_replicateM.
    apply forward_bind; [apply forward_np_random_random | intros u].
    apply forward_hockey_transform.
  - unfold np_random_triangular.
    repeat (apply forward_if; [apply forward_raise|]).
    apply forward_replicateM.
    apply forward_bind; [apply forward_np_random_random | intros u].
    apply forward_ret.
Qed.

Lemma forward_infect_and_sicken f it np doses :
  forward (infect_and_sicken f it np doses).
Proof.
  unfold infect_and_sicken.
  apply forward_bind; [apply forward_discretize_dose | intros flat_doses].
  apply forward_bind; [apply forward_np_random_binomial1 | intros inf].
  apply forward_bind; [apply forward_determine_illness | intros ill].
  apply forward_ret.
Qed.

(** The run only consumes the generator, whatever its outcome. *)
Lemma forward_run f g fuel a : forward (run_shellfish_qmra_advanced f g fuel a).
Proof.
  unfold run_shellfish_qmra_advanced, simulate_outcomes.
  apply forward_bind; [|intros outcomes; apply forward_aggregate_results].
  apply forward_bind; [apply forward_sample_effluent | intros e].
  apply forward_bind; [apply forward_py_pow10 | intros removal].
  apply forward_bind; [apply forward_sample_ecdf | intros dil].
  apply forward_bind; [apply forward_sample_meals_and_bafs | intros mb].
  apply forward_infect_and_sicken.
Qed.

Lemma replicateM_draws {A : Type} (c : M A) :
  (forall w x w', c w = (Ok x, w') -> w' = advance w) ->
  forall n w xs w', replicateM n c w = (Ok xs, w') -> w' = advance_by n w.
Proof.
  intros Hc. induction n as [|n IH]; intros w xs w' H; simpl in H.
  - inversion H; subst. now rewrite advance_by_0.
  - apply bind_ok_inv in H as (x & w1 & E1 & H).
    apply bind_ok_inv in H as (t & w2 & E2 & H).
    inversion H; subst. rewrite (IH _ _ _ E2), (Hc _ _ _ E1).
    apply advance_by_S.
Qed.

Lemma py_truediv_state a b w o w' : py_truediv a b w = (o, w') -> w' = w.
Proof.
  unfold py_truediv. destruct (feq b (Fin 0)); intros H; now inversion H.
Qed.

Lemma bind_pure_state {A B : Type} (c : M A) (f : A -> B) w o w' :
  (forall w o w', c w = (o, w') -> w' = w) ->
  bind c (fun r => ret (f r)) w = (o, w') -> w' = w.
Proof.
  intros Hc. unfold bind. destruct (c w) as [[a|e|] w1] eqn:E; intros H;
    inversion H; subst; exact (Hc _ _ _ E).
Qed.

Lemma hockey_transform_state x0 x50 x100 pb h1 xp u w o w' :
  hockey_transform x0 x50 x100 pb h1 xp u w = (o, w') -> w' = w.
Proof.
  unfold hockey_transform, hockey_lower, hockey_middle, hockey_upper.
  destruct (fle u (Fin 0.5)); [|destruct (fle u pb)];
    apply bind_pure_state; intros w0 o0 w0'; apply py_truediv_state.
Qed.

(** The effluent step, when it succeeds, has consumed one draw per
    iteration. *)
Lemma sample_effluent_draws a w e w' :
  sample_effluent a w = (Ok e, w') -> w' = advance_by (iterations a) w.
Proof.
  unfold sample_effluent. destruct (use_hockey_stick a).
  - unfold sample_hockey_stick_concentration. intros H.
    apply bind_ok_inv in H as (h1 & w1 & E1 & H).
    apply py_truediv_state in E1. subst w1.
    apply (replicateM_draws _) in H; [assumption|].
    intros w0 x w0' H0. apply bind_ok_inv in H0 as (u & w2 & E2 & H0).
    rewrite np_random_random_eq in E2. inversion E2; subst.
    now apply hockey_transform_state in H0.
  - unfold np_random_triangular.
    destruct (flt _ _); [discriminate|]. destruct (flt _ _); [discriminate|].
    destruct (feq _ _); [discriminate|]. intros H.
    apply (replicateM_draws _) in H; [assumption|].
    intros w0 x w0' H0. apply bind_ok_inv in H0 as (u & w2 & E2 & H0).
    rewrite np_random_random_eq in E2. inversion E2; subst. now inversion H0.
Qed.

(** C9, as the code has it.  [run_shellfish_qmra_advanced] takes no random
    source: its randomness is read from the process-wide NumPy generator.
    Whatever its outcome, the run leaves that generator on the same
    sequence and never behind the state in which it found it; and a run
    that returns a result has advanced it by at least one draw per
    iteration: the next invocation starts from that state, not from the
    one the run started from. *)
Theorem runs_share_the_global_generator :
  forall (lnGamma : R -> R) (norm_ppf : R -> npfloat) (fuel : nat)
         (a : qmra_args) (w w' : rng) (o : outcome qmra_result),
    run_shellfish_qmra_advanced lnGamma norm_ppf fuel a w = (o, w') ->
    stream w' = stream w /\ (pos w <= pos w')%nat /\
    forall r, o = Ok r -> (iterations a + pos w <= pos w')%nat.
Proof.
  intros f g fuel a w w' o H.
  destruct (forward_run f g fuel a w o w' H) as [Hs Hp].
  split; [exact Hs|]. split; [exact Hp|].
  intros r ->. unfold run_shellfish_qmra_advanced in H.
  apply bind_ok_inv in H as (outcomes & w2 & Esim & H).
  destruct (forward_aggregate_results _ _ _ _ _ _ H) as [_ Hp2].
  unfold simulate_outcomes in Esim.
  apply bind_ok_inv in Esim as (e & w1 & E1 & Esim).
  apply sample_effluent_draws in E1. subst w1.
  assert (Hrest : (pos (advance_by (iterations a) w) <= pos w2)%nat).
  { revert Esim. apply forward_bind; [apply forward_py_pow10 | intros removal].
    apply forward_bind; [apply forward_sample_ecdf | intros dil].
    apply forward_bind; [apply forward_sample_meals_and_bafs | intros mb].
    apply forward_infect_and_sicken. }
  simpl in Hrest. lia.
Qed.

Lemma replay_first_run :
  exists r,
    run_shellfish_qmra_advanced lnGamma_rec no_norm_ppf 0 unit_site replay_rng
    = (Ok r, advance_by 5 replay_rng) /\
    infections_distribution r = [1%Z].
Proof.
  destruct (unit_site_run lnGamma_rec no_norm_ppf 0 replay_rng
                          lnGamma_rec_recurrence unit_fraction_half) as [r [E D]].
  cbn [replay_rng rng_of_list stream pos nth] in E, D.
  rewrite unit_fraction_zero in E, D.
  rewrite Rltb_true in E, D by (unfold ALPHA, BETA; lra).
  now exists r.
Qed.

Lemma replay_second_run :
  exists r,
    run_shellfish_qmra_advanced lnGamma_rec no_norm_ppf 0 unit_site
                                (advance_by 5 replay_rng)
    = (Ok r, advance_by 9 replay_rng) /\
    infections_distribution r = [0%Z].
Proof.
  destruct (unit_site_run lnGamma_rec no_norm_ppf 0 (advance_by 5 replay_rng)
                          lnGamma_rec_recurrence unit_fraction_half) as [r [E D]].
  cbn [replay_rng rng_of_list advance_by stream pos nth Nat.add] in E, D.
  rewrite unit_fraction_half in E, D.
  rewrite Rltb_false in E, D by (unfold ALPHA, BETA; lra).
  now exists r.
Qed.

Lemma runs_share_the_global_generator_witness :
  exists r w',
    run_shellfish_qmra_advanced lnGamma_rec no_norm_ppf 0 unit_site replay_rng
    = (Ok r, w') /\
    stream w' = stream replay_rng /\
    (iterations unit_site + pos replay_rng <= pos w')%nat.
Proof.
  destruct replay_first_run as [r [E _]].
  exists r, (advance_by 5 replay_rng). split; [exact E|].
  destruct (runs_share_the_global_generator
              lnGamma_rec no_norm_ppf 0 unit_site
              replay_rng (advance_by 5 replay_rng) (Ok r) E) as (Hs & _ & Hp).
  split; [exact Hs | exact (Hp r eq_refl)].
Defined.

(** C9 as stated fails.  The arguments of the run are all its interface
    accepts, and there is no random source among them: two invocations
    with the same arguments, one after the other, read different states of
    the global generator and return different infection arrays. *)
Lemma successive_runs_differ :
  exists r1 w1 r2 w2,
    run_shellfish_qmra_advanced lnGamma_rec no_norm_ppf 0 unit_site replay_rng
    = (Ok r1, w1) /\
    run_shellfish_qmra_advanced lnGamma_rec no_norm_ppf 0 unit_site w1
    = (Ok r2, w2) /\
    infections_distribution r1 = [1%Z] /\
    infections_distribution r2 = [0%Z] /\
    infections_distribution r1 <> infections_distribution r2.
Proof.
  destruct replay_first_run as [r1 [E1 D1]].
  destruct replay_second_run as [r2 [E2 D2]].
  exists r1, (advance_by 5 replay_rng), r2, (advance_by 9 replay_rng).
  repeat split; try assumption. rewrite D1, D2. discriminate.
Qed.

(** * Further properties of the code *)

(** ** Bioaccumulation-factor sampler *)

Lemma scaled_variate_not_nan m s y :
  0 < s -> y <> NaN -> fadd (Fin m) (fmul (Fin s) y) <> NaN.
Proof.
  intros Hs Hy. destruct y as [| |r|]; [contradiction| | |]; cbn [fmul fsign];
    rewrite ?Rltb_true by lra; cbn; discriminate.
Qed.

Lemma np_maximum_one x : x <> NaN -> at_least_one (np_maximum x (Fin 1.0)).
Proof.
  destruct x as [| |r|]; intros H; [contradiction| | |]; cbn.
  - left. exists 1.0. split; [reflexivity | lra].
  - left. exists (Rmax r 1.0). split; [reflexivity|].
    pose proof (Rmax_r r 1.0). lra.
  - now right.
Qed.

(** X1.  [sample_baf] floors every draw at [1.0]: with a finite mean, a
    standard deviation [> 0] and normal variates that are not NaN, it
    returns exactly [n_samples] values after [n_samples] draws, each of
    them at least [1] (or [+inf]); values below [1] are clamped, never
    redrawn. *)
Theorem sample_baf_floor :
  forall (norm_ppf : R -> npfloat) (n_samples : nat) (mean std : R) (w : rng),
    (forall u, norm_ppf u <> NaN) -> 0 < std ->
    exists samples,
      sample_baf norm_ppf n_samples (Fin mean) (Fin std) w
      = (Ok samples, advance_by n_samples w) /\
      List.length samples = n_samples /\
      Forall at_least_one samples.
Proof.
  intros g n m s w Hg Hs. unfold sample_baf, np_random_normal, flt.
  rewrite Rltb_false by lra.
  destruct (replicateM_one_draw
              (u <- np_random_random ;; ret (fadd (Fin m) (fmul (Fin s) (g u))))
              (fun x => x <> NaN)) with (n := n) (w := w) as [xs [E [Hl Hf]]].
  { intros w0. eexists. split; [reflexivity|]. now apply scaled_variate_not_nan. }
  exists (map (fun x => np_maximum x (Fin 1.0)) xs).
  unfold bind at 1. rewrite E. unfold ret. split; [reflexivity|].
  split; [now rewrite length_map|].
  apply Forall_map. eapply Forall_impl; [|exact Hf].
  intros x Hx. now apply np_maximum_one.
Qed.

Lemma sample_baf_floor_witness :
  (forall u, no_norm_ppf u <> NaN) /\ 0 < BAF_STD /\
  exists samples,
    sample_baf no_norm_ppf 3 (Fin BAF_MEAN) (Fin BAF_STD) (rng_of_list [])
    = (Ok samples, advance_by 3 (rng_of_list [])) /\
    List.length samples = 3%nat /\ Forall at_least_one samples.
Proof.
  assert (H1 : forall u, no_norm_ppf u <> NaN) by (intros u; discriminate).
  assert (H2 : 0 < BAF_STD) by (unfold BAF_STD; lra).
  split; [exact H1|]. split; [exact H2|].
  exact (sample_baf_floor no_norm_ppf 3 BAF_MEAN BAF_STD (rng_of_list []) H1 H2).
Defined.

(** ** Division by zero in the hockey-stick sampler *)

(** X4.  In hockey-stick mode a site whose effluent minimum equals its
    median is not simulated: the run stops with [ZeroDivisionError] at the
    computation of [h1], before any random draw, whatever the other
    inputs. *)
Theorem equal_min_median_raises :
  forall (lnGamma : R -> R) (norm_ppf : R -> npfloat) (fuel : nat)
         (a : qmra_args) (w : rng) (x : R),
    use_hockey_stick a = true ->
    effluent_min a = Fin x -> effluent_median a = Fin x ->
    run_shellfish_qmra_advanced lnGamma norm_ppf fuel a w
    = (Raise (ZeroDivisionError "float division by zero"), w).
Proof.
  intros f g fuel a w x Hhs E0 E50.
  unfold run_shellfish_qmra_advanced, simulate_outcomes.
  unfold bind at 1. unfold bind at 1.
  unfold sample_effluent. rewrite Hhs, E0, E50.
  unfold sample_hockey_stick_concentration. unfold bind at 1.
  unfold hockey_h1, py_truediv. cbn [fsub fneg fadd].
  unfold feq, fle. rewrite !Rleb_true by lra. reflexivity.
Qed.

Lemma equal_min_median_raises_witness :
  use_hockey_stick flat_site = true /\
  run_shellfish_qmra_advanced lnGamma_rec no_norm_ppf 10 flat_site replay_rng
  = (Raise (ZeroDivisionError "float division by zero"), replay_rng).
Proof.
  split; [reflexivity|].
  exact (equal_min_median_raises lnGamma_rec no_norm_ppf 10 flat_site replay_rng
                                 1000 eq_refl eq_refl eq_refl).
Defined.

(** ** The doses that the discretizer accepts *)

(** X5.  [discretize_dose] accepts an array exactly when every dose is
    finite with a floor in the range of [int64], that is
    [-2^63 <= d < 2^63].  It then makes one draw per dose and returns as
    many integers.  When some dose is NaN, infinite or beyond that range,
    the binomial draw refuses the whole array with a [ValueError] before
    anything is drawn, so that no count is produced from such a dose. *)
Theorem discretize_dose_accepts_int64_range :
  forall (dose : list npfloat) (w : rng),
    (Forall int64_dose dose ->
     exists out,
       discretize_dose dose w = (Ok out, advance_by (List.length dose) w) /\
       List.length out = List.length dose) /\
    (Exists (fun d => ~ int64_dose d) dose ->
     exists msg, discretize_dose dose w = (Raise (ValueError msg), w)).
Proof.
  intros dose w. split.
  - intros H. destruct (discretize_dose_int64 dose w H) as [out [E H2]].
    exists out. split; [exact E|]. symmetry. exact (Forall2_length H2).
  - intros H. eexists. rewrite discretize_dose_eq. unfold bind.
    rewrite np_random_binomial1_invalid by now apply fractional_parts_invalid.
    reflexivity.
Qed.

Lemma discretize_dose_accepts_int64_range_witness :
  Exists (fun d => ~ int64_dose d) [Fin 2.5; Fin 1e19] /\
  exists msg,
    discretize_dose [Fin 2.5; Fin 1e19] replay_rng
    = (Raise (ValueError msg), replay_rng).
Proof.
  assert (H : Exists (fun d => ~ int64_dose d) [Fin 2.5; Fin 1e19]).
  { right. left. intros [r [E Hr]]. injection E as <-. lra. }
  split; [exact H|].
  exact (proj2 (discretize_dose_accepts_int64_range [Fin 2.5; Fin 1e19] replay_rng) H).
Defined.

(** ** Counts and summary statistics of a result *)

Lemma reshape_rows {A : Type} (P : A -> Prop) rows cols (l : list A) :
  Forall P l ->
  Forall (fun row => Forall P row /\ (List.length row <= cols)%nat)
         (reshape rows cols l).
Proof.
  revert l. induction rows as [|r IH]; intros l H; simpl; constructor.
  - split; [now apply Forall_firstn_keep | apply firstn_le_length].
  - apply IH. clear IH. revert l H. induction cols as [|c IHc]; intros l H; simpl.
    + assumption.
    + destruct l as [|x l]; [constructor|]. apply IHc. now inversion H.
Qed.

Lemma sumZ_bits_le l :
  Forall is_bit l -> (0 <= sumZ l <= Z.of_nat (List.length l))%Z.
Proof.
  induction 1 as [|b t Hb Ht IH]; [simpl; lia|].
  change (sumZ (b :: t)) with (b + sumZ t)%Z. cbn [List.length].
  destruct Hb as [-> | ->]; lia.
Qed.

(** The rows of the infection array hold at most one bit per person. *)
Lemma simulate_outcomes_rows f g fuel a w infected ill w' :
  simulate_outcomes f g fuel a w = (Ok (infected, ill), w') ->
  Forall (fun row => Forall is_bit row /\ (List.length row <= num_people a)%nat)
         infected.
Proof.
  intros H. apply simulate_outcomes_inv in H as (doses & w0 & H).
  unfold infect_and_sicken in H.
  apply bind_ok_inv in H as (flat_doses & w4 & _ & H).
  apply bind_ok_inv in H as (flat_infected & w5 & Einf & H).
  apply bind_ok_inv in H as (ill0 & w6 & Eill & H).
  unfold ret in H. inversion H; subst infected ill0 w6. clear H.
  apply np_random_binomial1_ok_inv in Einf as (Hbits & _ & _).
  now apply reshape_rows.
Qed.

Lemma run_ok_inv f g fuel a w r w' :
  run_shellfish_qmra_advanced f g fuel a w = (Ok r, w') ->
  exists infected ill w1,
    simulate_outcomes f g fuel a w = (Ok (infected, ill), w1) /\
    aggregate_results a (map sumZ infected) (map sumZ ill) w1 = (Ok r, w').
Proof.
  intros H. unfold run_shellfish_qmra_advanced in H.
  apply bind_ok_inv in H as ([infected ill] & w1 & Esim & H).
  now exists infected, ill, w1.
Qed.

Lemma aggregate_results_inv a l l' w r w' :
  aggregate_results a l l' w = (Ok r, w') ->
  exists x t,
    l = x :: t /\
    infections_distribution r = l /\ illness_distribution r = l' /\
    infections_min r = fold_right Z.min x t /\
    infections_max r = fold_right Z.max x t /\
    infections_mean r = np_mean l /\ illness_mean r = np_mean l' /\
    risk_per_person_mean r = fdiv (np_mean l) (Fin (INR (num_people a))) /\
    res_iterations r = iterations a /\ res_num_people r = num_people a.
Proof.
  unfold aggregate_results. intros H.
  apply bind_ok_inv in H as (u0 & w0 & E0 & H).
  apply bind_ok_inv in H as (inf_min & w1 & E1 & H).
  apply bind_ok_inv in H as (inf_max & w2 & E2 & H).
  apply bind_ok_inv in H as (u1 & w3' & E3' & H).
  apply bind_ok_inv in H as (ill_min & w3 & E3 & H).
  apply bind_ok_inv in H as (ill_max & w4 & E4 & H).
  destruct l as [|x t]; [discriminate|].
  unfold np_min, np_max, ret in E1, E2. inversion E1; inversion E2; subst.
  unfold ret in H. inversion H; subst. cbn.
  exists x, t. repeat split.
Qed.

(** The counts of a result: within the population, illness within
    infection. *)
Lemma counts_bounds_helper f g fuel a w w' r :
  run_shellfish_qmra_advanced f g fuel a w = (Ok r, w') ->
  Forall (fun c => (0 <= c <= Z.of_nat (num_people a))%Z)
         (infections_distribution r) /\
  Forall (fun c => (0 <= c <= Z.of_nat (num_people a))%Z)
         (illness_distribution r) /\
  Forall2 (fun inf il => (0 <= il <= inf)%Z /\ (inf = 0%Z -> il = 0%Z))
          (infections_distribution r) (illness_distribution r).
Proof.
  intros H.
  apply run_ok_inv in H as (infected & ill & w1 & Esim & Hagg).
  apply aggregate_results_inv in Hagg as (x & t & _ & -> & -> & _).
  pose proof (simulate_outcomes_rows f g fuel a w infected ill w1 Esim) as Hrows.
  destruct (simulate_outcomes_spec f g fuel a w infected ill w1 Esim)
    as (_ & _ & Hgrid).
  assert (Hinf : Forall (fun c => (0 <= c <= Z.of_nat (num_people a))%Z)
                        (map sumZ infected)).
  { apply Forall_map. eapply Forall_impl; [|exact Hrows].
    intros row [Hb Hl]. pose proof (sumZ_bits_le row Hb). lia. }
  pose proof (Forall2_sums infected ill Hgrid) as H2.
  split; [exact Hinf|]. split; [|exact H2].
  clear - Hinf H2. induction H2 as [|i l ti tl [Hil _] Ht IH]; [constructor|].
  inversion Hinf; subst. constructor; [lia | now apply IH].
Qed.

(** X7.  In every result of the run, each scenario's infection count and
    illness count lie between [0] and the population size [num_people]. *)
Theorem counts_within_population :
  forall (lnGamma : R -> R) (norm_ppf : R -> npfloat)
         (fuel : nat) (a : qmra_args) (w w' : rng) (r : qmra_result),
    run_shellfish_qmra_advanced lnGamma norm_ppf fuel a w = (Ok r, w') ->
    Forall (fun c => (0 <= c <= Z.of_nat (num_people a))%Z)
           (infections_distribution r) /\
    Forall (fun c => (0 <= c <= Z.of_nat (num_people a))%Z)
           (illness_distribution r).
Proof.
  intros f g fuel a w w' r H.
  destruct (counts_bounds_helper f g fuel a w w' r H) as (H1 & H2 & _).
  now split.
Qed.

Lemma counts_within_population_witness :
  exists r w',
    run_shellfish_qmra_advanced lnGamma_rec no_norm_ppf 0 scenario_site
                                (rng_of_list []) = (Ok r, w') /\
    Forall (fun c => (0 <= c <= 100)%Z) (infections_distribution r).
Proof.
  destruct (scenario_site_returns (rng_of_list [])) as [r [w' E]].
  exists r, w'. split; [exact E|].
  exact (proj1 (counts_within_population lnGamma_rec no_norm_ppf 0 scenario_site
                                         (rng_of_list []) w' r E)).
Defined.

Lemma fold_min_spec x t :
  In (fold_right Z.min x t) (x :: t) /\
  forall c, In c (x :: t) -> (fold_right Z.min x t <= c)%Z.
Proof.
  induction t as [|y t [Hin Hle]]; simpl.
  - split; [now left|]. intros c [<- | []]. lia.
  - split.
    + destruct (Z.min_spec y (fold_right Z.min x t)) as [[_ ->] | [_ ->]].
      * right. now left.
      * destruct Hin as [Hin | Hin]; [now left | right; now right].
    + intros c [<- | [<- | Hc]].
      * pose proof (Hle x (or_introl eq_refl)). lia.
      * lia.
      * pose proof (Hle c (or_intror Hc)). lia.
Qed.

Lemma fold_max_spec x t :
  In (fold_right Z.max x t) (x :: t) /\
  forall c, In c (x :: t) -> (c <= fold_right Z.max x t)%Z.
Proof.
  induction t as [|y t [Hin Hle]]; simpl.
  - split; [now left|]. intros c [<- | []]. lia.
  - split.
    + destruct (Z.max_spec y (fold_right Z.max x t)) as [[_ ->] | [_ ->]].
      * destruct Hin as [Hin | Hin]; [now left | right; now right].
      * right. now left.
    + intros c [<- | [<- | Hc]].
      * pose proof (Hle x (or_introl eq_refl)). lia.
      * lia.
      * pose proof (Hle c (or_intror Hc)). lia.
Qed.

Lemma sumZ_bounds lo hi l :
  Forall (fun c => (lo <= c <= hi)%Z) l ->
  (Z.of_nat (List.length l) * lo <= sumZ l <= Z.of_nat (List.length l) * hi)%Z.
Proof.
  induction 1 as [|c t Hc Ht IH]; [simpl; lia|].
  change (sumZ (c :: t)) with (c + sumZ t)%Z. cbn [List.length]. lia.
Qed.

(** The mean of a non-empty integer array lies between any two bounds of
    its entries. *)
Lemma np_mean_bounds lo hi l :
  l <> [] -> Forall (fun c => (lo <= c <= hi)%Z) l ->
  exists m, np_mean l = Fin m /\ IZR lo <= m <= IZR hi.
Proof.
  intros Hne Hl. unfold np_mean.
  assert (Hlen : 0 < INR (List.length l)).
  { apply lt_0_INR. destruct l; [contradiction | simpl; lia]. }
  rewrite fdiv_fin by lra. eexists. split; [reflexivity|].
  destruct (sumZ_bounds lo hi l Hl) as [H1 H2].
  apply IZR_le in H1, H2. rewrite mult_IZR, <- INR_IZR_INZ in H1, H2.
  split.
  - apply (Rmult_le_reg_r (INR (List.length l))); [assumption|].
    unfold Rdiv. rewrite Rmult_assoc, Rinv_l by lra. lra.
  - apply (Rmult_le_reg_r (INR (List.length l))); [assumption|].
    unfold Rdiv. rewrite Rmult_assoc, Rinv_l by lra. lra.
Qed.

(** X8.  The summary statistics of a result agree with its count arrays:
    the reported minimum and maximum are entries of the infection array
    and bound all of them, the mean lies between them, the illness mean is
    at most the infection mean, and for a population of at least one the
    risk per person is the mean divided by [num_people], a number in
    [[0, 1]].  A result is only produced for at least one iteration. *)
Theorem summary_statistics_consistent :
  forall (lnGamma : R -> R) (norm_ppf : R -> npfloat)
         (fuel : nat) (a : qmra_args) (w w' : rng) (r : qmra_result),
    run_shellfish_qmra_advanced lnGamma norm_ppf fuel a w = (Ok r, w') ->
    num_people a <> 0%nat ->
    iterations a <> 0%nat /\
    In (infections_min r) (infections_distribution r) /\
    In (infections_max r) (infections_distribution r) /\
    Forall (fun c => (infections_min r <= c <= infections_max r)%Z)
           (infections_distribution r) /\
    exists m mi q,
      infections_mean r = Fin m /\ illness_mean r = Fin mi /\
      risk_per_person_mean r = Fin q /\
      IZR (infections_min r) <= m <= IZR (infections_max r) /\
      0 <= mi <= m /\
      q = m / INR (num_people a) /\ 0 <= q <= 1.
Proof.
  intros f g fuel a w w' r H Hnp.
  pose proof (counts_bounds_helper f g fuel a w w' r H) as [Hinf [Hill Hrel]].
  apply run_ok_inv in H as (infected & ill & w1 & Esim & Hagg).
  destruct (simulate_outcomes_spec f g fuel a w infected ill w1 Esim)
    as (Hl1 & Hl2 & _).
  apply aggregate_results_inv in Hagg
    as (x & t & El & Ed & Edl & Emin & Emax & Emean & Eimean & Erisk & _).
  rewrite Ed, Edl in *. rewrite Emin, Emax, Emean, Eimean, Erisk.
  destruct (fold_min_spec x t) as [Hmin_in Hmin_le].
  destruct (fold_max_spec x t) as [Hmax_in Hmax_le].
  assert (Hne : map sumZ infected <> []) by (rewrite El; discriminate).
  assert (Hne' : map sumZ ill <> []).
  { intros E. apply Hne. destruct infected; [reflexivity|].
    destruct ill; [simpl in Hl2; simpl in Hl1; lia | discriminate]. }
  split.
  { intros E. apply Hne. rewrite E in Hl1. destruct infected; [reflexivity | discriminate]. }
  rewrite El in *. split; [assumption|]. split; [assumption|]. split.
  { apply Forall_forall. intros c Hc. split; [now apply Hmin_le | now apply Hmax_le]. }
  destruct (np_mean_bounds (fold_right Z.min x t) (fold_right Z.max x t) (x :: t))
    as [m [Em Hm]]; [discriminate | |].
  { apply Forall_forall. intros c Hc. split; [now apply Hmin_le | now apply Hmax_le]. }
  destruct (np_mean_bounds 0 (Z.of_nat (num_people a)) (x :: t) ltac:(discriminate) Hinf)
    as [m' [Em' Hm']].
  rewrite Em in Em'. injection Em' as <-.
  destruct (np_mean_bounds 0 (Z.of_nat (num_people a)) (map sumZ ill) Hne' Hill)
    as [mi [Emi Hmi]].
  assert (Hnp' : 0 < INR (num_people a)) by (apply lt_0_INR; lia).
  rewrite <- INR_IZR_INZ in Hm'.
  exists m, mi, (m / INR (num_people a)).
  rewrite Em, Emi. rewrite fdiv_fin by lra.
  repeat split; try lra.
  - (* illness mean at most infection mean *)
    unfold np_mean in Em, Emi.
    assert (Hlen : List.length (map sumZ ill) = List.length (x :: t)).
    { rewrite <- El, !length_map. lia. }
    assert (Hlen0 : 0 < INR (List.length (x :: t))) by (apply lt_0_INR; simpl; lia).
    rewrite Hlen in Emi. rewrite fdiv_fin in Em, Emi by lra.
    injection Em as <-. injection Emi as <-.
    assert (Hs : (sumZ (map sumZ ill) <= sumZ (x :: t))%Z).
    { clear - Hrel. induction Hrel as [|i l ti tl [Hil _] Ht IH]; [simpl; lia|].
      change (sumZ (l :: tl)) with (l + sumZ tl)%Z.
      change (sumZ (i :: ti)) with (i + sumZ ti)%Z. lia. }
    apply IZR_le in Hs. unfold Rdiv.
    apply Rmult_le_compat_r; [|assumption].
    left. now apply Rinv_0_lt_compat.
  - apply Rmult_le_pos; [lra | left; now apply Rinv_0_lt_compat].
  - apply (Rmult_le_reg_r (INR (num_people a))); [assumption|].
    unfold Rdiv. rewrite Rmult_assoc, Rinv_l by lra. lra.
Qed.

Lemma summary_statistics_consistent_witness :
  exists r w',
    run_shellfish_qmra_advanced lnGamma_rec no_norm_ppf 0 scenario_site
                                (rng_of_list []) = (Ok r, w') /\
    In (infections_min r) (infections_distribution r) /\
    In (infections_max r) (infections_distribution r).
Proof.
  destruct (scenario_site_returns (rng_of_list [])) as [r [w' E]].
  exists r, w'. split; [exact E|].
  destruct (summary_statistics_consistent
              lnGamma_rec no_norm_ppf 0 scenario_site (rng_of_list []) w' r E)
    as (_ & Hmin & Hmax & _); [discriminate|].
  now split.
Defined.

(** ** The rejection sampler and the run with variable meal sizes *)

Lemma upcoming_variates_S w fuel :
  upcoming_variates w (S fuel)
  = meal_size_variate (stream w (pos w)) :: upcoming_variates (advance w) fuel.
Proof. reflexivity. Qed.

Lemma accepted_among_filter w fuel :
  accepted_among w fuel
  = List.length (filter meal_size_accepted (upcoming_variates w fuel)).
Proof.
  revert w. induction fuel as [|fuel IH]; intros w; [reflexivity|].
  rewrite upcoming_variates_S. cbn [accepted_among filter]. rewrite IH.
  now destruct (meal_size_accepted (meal_size_variate (stream w (pos w)))).
Qed.

(** The loop appends the accepted variates in the order of the draws. *)
Lemma meal_size_loop_order n :
  forall fuel samples w out w',
    (List.length samples <= n)%nat ->
    meal_size_loop fuel n samples w = (Ok out, w') ->
    out = samples ++ firstn (n - List.length samples)
                            (filter meal_size_accepted (upcoming_variates w fuel)).
Proof.
  induction fuel as [|fuel IH]; intros samples w out w' Hl; cbn [meal_size_loop];
    destruct (List.length samples <? n)%nat eqn:E.
  - discriminate.
  - apply Nat.ltb_ge in E. unfold ret. intros H; inversion H; subst.
    replace (n - List.length out)%nat with 0%nat by lia.
    now rewrite app_nil_r.
  - apply Nat.ltb_lt in E. unfold bind. rewrite fisk_rvs_eq.
    fold (meal_size_accepted (meal_size_variate (stream w (pos w)))).
    rewrite upcoming_variates_S. cbn [filter].
    destruct (meal_size_accepted (meal_size_variate (stream w (pos w)))) eqn:Ea.
    + intros H. apply IH in H; [|rewrite length_app; simpl; lia].
      rewrite H, length_app. cbn [List.length].
      replace (n - List.length samples)%nat
        with (S (n - (List.length samples + 1)))%nat by lia.
      cbn [firstn]. now rewrite <- app_assoc.
    + intros H. now apply IH in H.
  - apply Nat.ltb_ge in E. unfold ret. intros H; inversion H; subst.
    replace (n - List.length out)%nat with 0%nat by lia.
    now rewrite app_nil_r.
Qed.

(** X9.  When the next [fuel] variates of the generator hold at least
    [n_samples] acceptable ones, the rejection sampler returns the first
    [n_samples] acceptable variates, in the order in which they were
    drawn: rejected variates are dropped and nothing is reordered. *)
Theorem meal_sizes_first_accepted_in_order :
  forall (fuel n : nat) (w : rng),
    (n <= accepted_among w fuel)%nat ->
    exists w',
      sample_meal_size_loglogistic fuel n w
      = (Ok (firstn n (filter meal_size_accepted (upcoming_variates w fuel))), w').
Proof.
  intros fuel n w Hn.
  destruct (meal_size_loop_ok n fuel [] w (Forall_nil _) Hn) as (out & w' & E & _).
  exists w'. unfold sample_meal_size_loglogistic, bind. rewrite E. unfold ret.
  apply meal_size_loop_order in E; [|simpl; lia].
  cbn [List.length app] in E. rewrite Nat.sub_0_r in E. subst out.
  now rewrite firstn_firstn, Nat.min_id.
Qed.

Lemma meal_sizes_first_accepted_in_order_witness :
  exists w',
    sample_meal_size_loglogistic
      3 2 (rng_of_list [4503599627370496; 0; 4503599627370496]%N)
    = (Ok [meal_size_variate 4503599627370496;
           meal_size_variate 4503599627370496], w').
Proof.
  destruct (meal_sizes_first_accepted_in_order
              3 2 (rng_of_list [4503599627370496; 0; 4503599627370496]%N))
    as [w' E].
  - cbn [accepted_among rng_of_list advance stream pos nth].
    rewrite meal_size_variate_half_accepted, meal_size_variate_zero_rejected.
    simpl. lia.
  - exists w'. rewrite E.
    cbn [upcoming_variates rng_of_list stream pos seq map nth filter].
    rewrite meal_size_variate_half_accepted, meal_size_variate_zero_rejected.
    reflexivity.
Defined.

Lemma keeps_accepting_advance_by k w :
  keeps_accepting w -> keeps_accepting (advance_by k w).
Proof. intros H i. exact (H i). Qed.

Lemma accepted_among_mono w fuel fuel' :
  (fuel <= fuel')%nat -> (accepted_among w fuel <= accepted_among w fuel')%nat.
Proof.
  intros H. replace fuel' with (fuel + (fuel' - fuel))%nat by lia.
  rewrite accepted_among_add. lia.
Qed.

(** X10.  The run as the application configures it (variable meal sizes,
    fixed bioaccumulation factor, hockey-stick effluent), on inputs as the
    data quality check of the application accepts them and of moderate
    magnitude: effluent bounds [0 < min < median < max <= 1e100], a log
    removal between [0] and [300], finite dilution values of at least
    [dmin >= 1e-100], a factor [0 <= mhf <= 1e100], at least one
    iteration, and doses bounded by [800 * max * mhf / (1000 * dmin)] of at
    most [1e12] organisms.  The run then returns a result, with one
    infection count per iteration, for every sufficiently large bound on
    the meal-size draws, provided the generator keeps producing acceptable
    meal sizes. *)
Theorem application_run_returns :
  forall (lnGamma : R -> R) (norm_ppf : R -> npfloat) (a : qmra_args) (w : rng)
         (x0 x50 x100 lr b dmin : R),
    use_hockey_stick a = true ->
    mode a = "advanced"%string ->
    use_variable_baf a = false ->
    effluent_min a = Fin x0 -> effluent_median a = Fin x50 ->
    effluent_max a = Fin x100 ->
    0 < x0 -> x0 < x50 -> x50 < x100 -> x100 <= 1e100 ->
    log_removal_wwtp a = Fin lr -> 0 <= lr <= 300 ->
    mhf_fixed a = Fin b -> 0 <= b <= 1e100 ->
    drop_nan (dilution_data a) <> [] ->
    Forall (fun d => exists r, d = Fin r /\ dmin <= r)
           (drop_nan (dilution_data a)) ->
    1e-100 <= dmin ->
    800 * x100 * b <= 1e12 * (1000 * dmin) ->
    iterations a <> 0%nat ->
    keeps_accepting w ->
    exists fuel0, forall fuel, (fuel0 <= fuel)%nat ->
      exists r w',
        run_shellfish_qmra_advanced lnGamma norm_ppf fuel a w = (Ok r, w') /\
        List.length (infections_distribution r) = iterations a.
Proof.
  intros f g a w x0 x50 x100 lr b dmin Hhs Hmode Hbaf E0 E50 E100
         Hx0 Hx50 Hx100 HB Elr Hlr Eb Hb Hdata Hdil Hdmin Hbound Hit Hfair.
  set (w2 := advance_by (iterations a) (advance_by (iterations a) w)).
  assert (Hfair2 : keeps_accepting w2) by (now do 2 apply keeps_accepting_advance_by).
  destruct (accepted_among_unbounded w2 Hfair2 (iterations a * num_people a))
    as [fuel0 Hfuel0].
  exists fuel0. intros fuel Hfuel.
  apply (run_returns f g fuel a w x0 x50 x100 lr b x100 dmin 800 b);
    try assumption; try lra.
  - eapply Forall_impl; [|exact Hdil]. intros d [r [-> Hr]].
    exists r. split; [reflexivity | now left].
  - unfold meal_sizes_within. rewrite Hmode. cbn [String.eqb Ascii.eqb Bool.eqb].
    split; [assumption|]. fold w2. split.
    + pose proof (accepted_among_mono w2 fuel0 fuel Hfuel). lia.
    + unfold MEAL_SIZE_MAX. lra.
Qed.

Lemma application_run_returns_witness :
  exists fuel0, forall fuel, (fuel0 <= fuel)%nat ->
    exists r w',
      run_shellfish_qmra_advanced lnGamma_rec no_norm_ppf fuel application_site
                                  alternating_rng = (Ok r, w') /\
      List.length (infections_distribution r) = 1000%nat.
Proof.
  apply (application_run_returns
           lnGamma_rec no_norm_ppf application_site alternating_rng
           1 1000 100000 2.0 MHF_MEAN 95);
    try reflexivity; try discriminate; try (unfold MHF_MEAN; lra).
  - repeat constructor; eexists; (split; [reflexivity | lra]).
  - exact alternating_keeps_accepting.
Defined.

(** ** A population of zero *)

Lemma sumZ_zeros l : Forall (fun c => c = 0%Z) l -> sumZ l = 0%Z.
Proof.
  induction 1 as [|c t Hc Ht IH]; [reflexivity|].
  change (sumZ (c :: t)) with (c + sumZ t)%Z. lia.
Qed.

(** X11.  The run does not reject a population of zero: when it returns a
    result for [num_people = 0], every infection count is [0], the mean
    number of infections is [0] and the reported risk per person is NaN,
    the quotient [0 / 0]. *)
Theorem zero_population_reports_nan_risk :
  forall (lnGamma : R -> R) (norm_ppf : R -> npfloat)
         (fuel : nat) (a : qmra_args) (w w' : rng) (r : qmra_result),
    run_shellfish_qmra_advanced lnGamma norm_ppf fuel a w = (Ok r, w') ->
    num_people a = 0%nat ->
    Forall (fun c => c = 0%Z) (infections_distribution r) /\
    infections_mean r = Fin 0 /\
    risk_per_person_mean r = NaN.
Proof.
  intros f g fuel a w w' r H Hnp.
  pose proof (counts_bounds_helper f g fuel a w w' r H) as [Hinf _].
  rewrite Hnp in Hinf.
  apply run_ok_inv in H as (infected & ill & w1 & Esim & Hagg).
  apply aggregate_results_inv in Hagg
    as (x & t & El & Ed & _ & _ & _ & Emean & _ & Erisk & _).
  rewrite Ed in Hinf.
  assert (Hz : Forall (fun c => c = 0%Z) (map sumZ infected)).
  { eapply Forall_impl; [|exact Hinf]. cbn. intros c Hc. lia. }
  assert (Hm : np_mean (map sumZ infected) = Fin 0).
  { unfold np_mean. rewrite (sumZ_zeros _ Hz), El.
    assert (0 < INR (List.length (x :: t))) by (apply lt_0_INR; simpl; lia).
    rewrite fdiv_fin by lra. f_equal. unfold Rdiv. apply Rmult_0_l. }
  rewrite Ed, Emean, Erisk, Hm, Hnp. split; [exact Hz|]. split; [reflexivity|].
  cbn [INR fdiv fsign]. rewrite Reqb_true by reflexivity.
  rewrite Rltb_false by lra. reflexivity.
Qed.

Lemma zero_population_reports_nan_risk_witness :
  exists r w',
    run_shellfish_qmra_advanced lnGamma_rec no_norm_ppf 0 empty_population_site
                                (rng_of_list []) = (Ok r, w') /\
    risk_per_person_mean r = NaN.
Proof.
  destruct (run_returns lnGamma_rec no_norm_ppf 0 empty_population_site
              (rng_of_list []) 1 1000 100000 2.0 MHF_MEAN 100000 95 50 MHF_MEAN)
    as (r & w' & E & _);
    try reflexivity; try discriminate; try (unfold MHF_MEAN; lra).
  - repeat constructor; eexists; (split; [reflexivity | lra]).
  - exists 50. split; [reflexivity | lra].
  - exists r, w'. split; [exact E|].
    exact (proj2 (proj2 (zero_population_reports_nan_risk
                           lnGamma_rec no_norm_ppf 0 empty_population_site
                           (rng_of_list []) w' r E eq_refl))).
Defined.

(** ** Stochastic rounding, dose by dose *)

(** X12.  For doses with a floor in the range of [int64], negative ones
    included, [discretize_dose] returns for every dose an integer less
    than one organism away from it: the floor or the floor plus one.  A
    whole dose is returned unchanged, whatever the state of the generator,
    and a non-negative dose never gives a negative count. *)
Theorem discretize_dose_rounds_to_neighbour :
  forall (dose : list R) (w : rng),
    Forall (fun d => - 2 ^ 63 <= d < 2 ^ 63) dose ->
    exists out,
      discretize_dose (map Fin dose) w
      = (Ok out, advance_by (List.length dose) w) /\
      Forall2 (fun d x => d - 1 < IZR x < d + 1 /\
                          (0 <= d -> (0 <= x)%Z) /\
                          (forall k, d = IZR k -> x = k))
              dose out.
Proof.
  intros dose w Hd.
  assert (Hd' : Forall int64_dose (map Fin dose)).
  { apply Forall_map. eapply Forall_impl; [|exact Hd].
    intros d H. now exists d. }
  destruct (discretize_dose_int64 (map Fin dose) w Hd') as [out [E H]].
  rewrite length_map in E. exists out. split; [exact E|].
  clear E Hd Hd'. revert out H.
  induction dose as [|r dose IH]; intros out H; inversion H as [|? x ? t Hx Ht];
    subst; constructor; [|now apply IH].
  destruct Hx as [r' [Er Hx]]. injection Er as <-.
  pose proof (Int_part_bounds r) as [Hlo Hhi].
  assert (Hx' : r - 1 < IZR x < r + 1).
  { destruct Hx as [-> | [-> Hfrac]]; [|rewrite plus_IZR]; lra. }
  split; [exact Hx'|]. split.
  - intros Hr. pose proof (Int_part_nonneg r Hr). destruct Hx as [-> | [-> _]]; lia.
  - intros k ->. destruct Hx' as [H1 H2].
    replace (IZR k - 1) with (IZR (k - 1)) in H1 by (rewrite minus_IZR; reflexivity).
    replace (IZR k + 1) with (IZR (k + 1)) in H2 by (rewrite plus_IZR; reflexivity).
    apply lt_IZR in H1, H2. lia.
Qed.

Lemma discretize_dose_rounds_to_neighbour_witness :
  Forall (fun d => - 2 ^ 63 <= d < 2 ^ 63) [3; -2.5] /\
  exists out,
    discretize_dose (map Fin [3; -2.5]) replay_rng
    = (Ok out, advance_by 2 replay_rng) /\
    nth 0 out 0%Z = 3%Z.
Proof.
  assert (Hd : Forall (fun d => - 2 ^ 63 <= d < 2 ^ 63) [3; -2.5])
    by (repeat constructor; lra).
  split; [exact Hd|].
  destruct (discretize_dose_rounds_to_neighbour [3; -2.5] replay_rng Hd)
    as [out [E H]].
  exists out. split; [exact E|].
  inversion H as [|? x ? t (_ & _ & Hx) Ht]; subst.
  exact (Hx 3%Z eq_refl).
Defined.
